(** * europe-climate-bi: the colour scale, cell assembly, month cache and
      metric range of [src/app/page.js]

    Numbers.  A JavaScript number is modelled as an exact rational ([Q]) or
    [NaN]: finite doubles are idealised as the rationals they denote, and the
    only non-finite results the modelled code could produce, those of a
    division by zero, are an explicit outcome ([NonFinite]) instead of a
    value.  [Math.round] is [floor (x + 1/2)].

    Values.  A value found in a grid or handed to a colour function is
    [null], [undefined] (a missing element or property) or a number.

    Arrays.  [[r, g, b]] and [[r, g, b, a]] are tuples of integers; an array
    read by index is a list with [!!], and what the code does on a missing
    element is written out where it can happen.

    State.  The component's [useState] and [useRef] cells that the month
    cache touches are the fields of [state]; the user and the network act on
    it through [event]s. *)

From Stdlib Require Import QArith Qround Qminmax Qabs Lqa ZArith Lia Ascii String Sorted.
From stdpp Require Import base option list strings pretty gmap.

Local Open Scope Q_scope.

(** ** Numbers, values and outcomes *)

Inductive jsnum : Type :=
  | Num (q : Q)
  | NaN.

Inductive jsval : Type :=
  | JNull
  | JUndefined
  | JNum (n : jsnum).

(** What running a piece of the code ends in: a value, a thrown
    [TypeError] (a property read on [undefined]), or a division by zero,
    whose IEEE result is not a rational. *)
Inductive outcome (A : Type) : Type :=
  | Ok (a : A)
  | TypeError
  | NonFinite.
Arguments Ok {A} a.
Arguments TypeError {A}.
Arguments NonFinite {A}.

#[global] Instance outcome_ret : MRet outcome := fun _ a => Ok a.
#[global] Instance outcome_bind : MBind outcome := fun _ _ f m =>
  match m with
  | Ok a => f a
  | TypeError => TypeError
  | NonFinite => NonFinite
  end.
#[global] Instance outcome_fmap : FMap outcome := fun _ _ f m =>
  match m with
  | Ok a => Ok (f a)
  | TypeError => TypeError
  | NonFinite => NonFinite
  end.

(** [a <= b], [a >= b] on numbers: every comparison with [NaN] is false. *)
Definition jle (a : jsnum) (b : Q) : bool :=
  match a with Num x => Qle_bool x b | NaN => false end.
Definition jge (a : jsnum) (b : Q) : bool :=
  match a with Num x => Qle_bool b x | NaN => false end.

(** [a - b] and [a - b] with the number on the right. *)
Definition jsub (a : jsnum) (b : Q) : jsnum :=
  match a with Num x => Num (x - b) | NaN => NaN end.
Definition jrsub (a : Q) (b : jsnum) : jsnum :=
  match b with Num x => Num (a - x) | NaN => NaN end.

(** [a / b]: of two finite numbers, and of a number that may be [NaN] by a
    finite one. *)
Definition qdiv (a b : Q) : outcome Q :=
  if Qeq_bool b 0 then NonFinite else Ok (a / b).
Definition jdiv (a : jsnum) (b : Q) : outcome jsnum :=
  match a with
  | Num x => Num <$> qdiv x b
  | NaN => if Qeq_bool b 0 then NonFinite else Ok NaN
  end.

(** [Math.min(a, b)] and [Math.max(a, b)] with a finite first argument. *)
Definition Math_min (a : Q) (b : jsnum) : jsnum :=
  match b with Num x => Num (Qmin a x) | NaN => NaN end.
Definition Math_max (a : Q) (b : jsnum) : jsnum :=
  match b with Num x => Num (Qmax a x) | NaN => NaN end.

(** [Math.round]: the nearest integer, ties towards +infinity. *)
Definition Math_round (x : Q) : Z := Qfloor (x + (1 # 2)).

(** ** Colour scales *)

Definition rgb : Type := (Z * Z * Z)%type.
Definition rgba : Type := (Z * Z * Z * Z)%type.

Record stop : Type := Stop { at_ : Q; color : rgb }.

Definition lerp (a b : rgb) (t : Q) : rgb :=
  let '(a0, a1, a2) := a in
  let '(b0, b1, b2) := b in
  (Math_round (inject_Z a0 + (inject_Z b0 - inject_Z a0) * t),
   Math_round (inject_Z a1 + (inject_Z b1 - inject_Z a1) * t),
   Math_round (inject_Z a2 + (inject_Z b2 - inject_Z a2) * t)).

(** The [for] loop of [multiStopColor]: [stops] is the part of the table
    from index [i] on, [final] the colour returned after the loop. *)
Fixpoint stopLoop (ratio : jsnum) (stops : list stop) (final : rgb)
  : outcome rgb :=
  match stops with
  | a :: ((b :: _) as rest) =>
      match ratio with
      | Num q =>
          if Qle_bool q (at_ b) then
            t ← qdiv (q - at_ a) (at_ b - at_ a);
            Ok (lerp (color a) (color b) t)
          else stopLoop ratio rest final
      | NaN => stopLoop ratio rest final
      end
  | _ => Ok final
  end.

Definition multiStopColor (ratio : jsnum) (stops : list stop) : outcome rgb :=
  match stops with
  | [] => TypeError
  | first :: _ =>
      if jle ratio (at_ first) then Ok (color first)
      else
        let final := List.last stops first in
        if jge ratio (at_ final) then Ok (color final)
        else stopLoop ratio stops (color final)
  end.

Definition TEMP_STOPS : list stop :=
  [ Stop 0 (33, 102, 172)%Z;
    Stop (1 # 2) (255, 255, 255)%Z;
    Stop 1 (178, 24, 43)%Z ].
Definition PRECIP_STOPS : list stop :=
  [ Stop 0 (255, 255, 204)%Z;
    Stop (2 # 5) (65, 182, 196)%Z;
    Stop 1 (12, 44, 132)%Z ].
Definition SUN_STOPS : list stop :=
  [ Stop 0 (74, 20, 134)%Z;
    Stop (1 # 5) (43, 140, 190)%Z;
    Stop (2 # 5) (166, 217, 237)%Z;
    Stop (3 # 5) (254, 227, 145)%Z;
    Stop (4 # 5) (244, 109, 67)%Z;
    Stop 1 (255, 204, 0)%Z ].

Inductive variable : Type := temperature | precipitation | sunshine.

Definition STOP_MAP (v : variable) : list stop :=
  match v with
  | temperature => TEMP_STOPS
  | precipitation => PRECIP_STOPS
  | sunshine => SUN_STOPS
  end.

(** The expression both colour functions compute their ratio with:
    [range === 0 ? 0.5 : Math.max(0, Math.min(1, (value - min) / range))]. *)
Definition clampedRatio (value : jsnum) (min max : Q) : outcome jsnum :=
  let range := max - min in
  if Qeq_bool range 0 then Ok (Num (1 # 2))
  else
    q ← jdiv (jsub value min) range;
    Ok (Math_max 0 (Math_min 1 q)).

Definition getColor (v : variable) (value : jsnum) (min max : Q) : outcome rgba :=
  ratio ← clampedRatio value min max;
  '(r, g, b) ← multiStopColor ratio (STOP_MAP v);
  Ok (r, g, b, 179%Z).

Definition GREEN_RED_STOPS : list stop :=
  [ Stop 0 (34, 139, 34)%Z;
    Stop (1 # 2) (255, 200, 0)%Z;
    Stop 1 (200, 30, 30)%Z ].

Definition bubbleColor (value : jsval) (min max : Q) (invert : bool)
  : outcome rgba :=
  match value with
  | JNull | JUndefined => Ok (160, 160, 160, 220)%Z
  | JNum n =>
      ratio ← clampedRatio n min max;
      let ratio := if invert then jrsub 1 ratio else ratio in
      '(r, g, b) ← multiStopColor ratio GREEN_RED_STOPS;
      Ok (r, g, b, 220%Z)
  end.

(** [VARIABLES[v].fixedMin] and [VARIABLES[v].fixedMax]: the fixed colour
    scale range of each heatmap variable. *)
Definition fixedMin (v : variable) : Q :=
  match v with
  | temperature => -15
  | precipitation => 0
  | sunshine => 0
  end.
Definition fixedMax (v : variable) : Q :=
  match v with
  | temperature => 35
  | precipitation => 200
  | sunshine => 14
  end.

(** ** Cell assembly *)

Definition CELL_SIZE : Q := 21 # 100.
Definition HALF : Q := CELL_SIZE / 2.

Record cell : Type := Cell {
  polygon : list (Q * Q);
  value : jsnum;
  i : nat;
  j : nat
}.

Definition cellPolygon (lon lat : Q) : list (Q * Q) :=
  [ (lon - HALF, lat - HALF);
    (lon + HALF, lat - HALF);
    (lon + HALF, lat + HALF);
    (lon - HALF, lat + HALF) ].

(** The inner loop, at row [i] with latitude [lat]: [lons] is what is left
    of the longitudes from column [j] on.  [grid[i][j]] throws when the grid
    has no row [i], and is [undefined] when the row has no column [j]. *)
Fixpoint colLoop (grid : list (list jsval)) (lat : Q) (i : nat)
    (lons : list Q) (j : nat) (cells : list cell) : outcome (list cell) :=
  match lons with
  | [] => Ok cells
  | lon :: lons' =>
      match grid !! i with
      | None => TypeError
      | Some row =>
          match row !! j with
          | None | Some JNull | Some JUndefined =>
              colLoop grid lat i lons' (S j) cells
          | Some (JNum val) =>
              colLoop grid lat i lons' (S j)
                (cells ++ [Cell (cellPolygon lon lat) val i j])
          end
      end
  end.

(** The outer loop: [lats] is what is left of the latitudes from row [i] on. *)
Fixpoint rowLoop (grid : list (list jsval)) (lats : list Q) (i : nat)
    (lons : list Q) (cells : list cell) : outcome (list cell) :=
  match lats with
  | [] => Ok cells
  | lat :: lats' =>
      cells' ← colLoop grid lat i lons 0 cells;
      rowLoop grid lats' (S i) lons cells'
  end.

Definition buildCells (lats lons : list Q) (grid : list (list jsval))
  : outcome (list cell) :=
  rowLoop grid lats 0 lons [].

(** [getFillColor] of the heatmap layer. *)
Definition cellFillColor (v : variable) (d : cell) : outcome rgba :=
  getColor v (value d) (fixedMin v) (fixedMax v).

Module Climate.
Record t : Type := Build {
  month : string;
  lats : list Q;
  lons : list Q;
  temperature : list (list jsval);
  precipitation : list (list jsval);
  sunshine : list (list jsval)
}.
End Climate.

(** [climateData[variable]] *)
Definition gridOf (climateData : Climate.t) (v : variable) : list (list jsval) :=
  match v with
  | temperature => Climate.temperature climateData
  | precipitation => Climate.precipitation climateData
  | sunshine => Climate.sunshine climateData
  end.

Definition cellsOf (climateData : Climate.t) (v : variable) : outcome (list cell) :=
  buildCells (Climate.lats climateData) (Climate.lons climateData)
    (gridOf climateData v).

(** ** The month cache

    [fetchMonth] and the promise chain it starts, as transitions of the
    component's state.  [pending] holds the keys of the fetches in flight;
    [fetched] and [failed] are history: every request issued, and every
    request that was rejected, in order. *)

Definition MONTH_KEYS : list string :=
  [ "jan"; "feb"; "mar"; "apr"; "may"; "jun";
    "jul"; "aug"; "sep"; "oct"; "nov"; "dec" ]%string.

Record state : Type := State {
  month : nat;
  climateData : option Climate.t;
  loading : bool;
  cache : gmap string Climate.t;
  pending : list string;
  fetched : list string;
  failed : list string
}.

(** [MONTH_KEYS[monthIdx]], as a property name. *)
Definition keyOf (monthIdx : nat) : string :=
  default "undefined"%string (MONTH_KEYS !! monthIdx).

Definition fetchMonth (monthIdx : nat) (s : state) : state :=
  let key := keyOf monthIdx in
  match cache s !! key with
  | Some data =>
      State (month s) (Some data) (loading s) (cache s)
        (pending s) (fetched s) (failed s)
  | None =>
      State (month s) (climateData s) true (cache s)
        (pending s ++ [key]) (fetched s ++ [key]) (failed s)
  end.

Definition handleMonthChange (idx : nat) (s : state) : state :=
  fetchMonth idx
    (State idx (climateData s) (loading s) (cache s)
       (pending s) (fetched s) (failed s)).

(** One promise leaves [pending] when it settles. *)
Fixpoint settle (key : string) (pending : list string) : list string :=
  match pending with
  | [] => []
  | k :: rest => if decide (k = key) then rest else k :: settle key rest
  end.

(** [.then((data) => { cache.current[key] = data; setClimateData(data); })]
    followed by [.finally(() => setLoading(false))]. *)
Definition resolved (key : string) (data : Climate.t) (s : state) : state :=
  State (month s) (Some data) false (<[key := data]> (cache s))
    (settle key (pending s)) (fetched s) (failed s).

(** A rejected fetch (network or parse error) runs [.finally] only. *)
Definition rejected (key : string) (s : state) : state :=
  State (month s) (climateData s) false (cache s)
    (settle key (pending s)) (fetched s) (failed s ++ [key]).

Inductive event : Type :=
  | Select (idx : nat)
  | Resolved (key : string) (data : Climate.t)
  | Rejected (key : string).

(** What can happen next.  The slider is [disabled] while [loading], so it
    delivers no change event then; a fetch settles only while in flight. *)
Definition step (s : state) (e : event) : option state :=
  match e with
  | Select idx => if loading s then None else Some (handleMonthChange idx s)
  | Resolved key data =>
      if decide (key ∈ pending s) then Some (resolved key data s) else None
  | Rejected key =>
      if decide (key ∈ pending s) then Some (rejected key s) else None
  end.

Fixpoint run (s : state) (evs : list event) : option state :=
  match evs with
  | [] => Some s
  | e :: evs' => s' ← step s e; run s' evs'
  end.

(** [useState(6)], [useRef({})], and the mount effect's [fetchMonth(month)]. *)
Definition initial : state := State 6 None false ∅ [] [] [].
Definition mounted : state := fetchMonth (month initial) initial.

Definition fetches (key : string) (s : state) : nat :=
  count_occ String.string_dec (fetched s) key.
Definition failures (key : string) (s : state) : nat :=
  count_occ String.string_dec (failed s) key.

(** ** The bubble metric range *)

(** A parsed city record.  The payload is parsed by [JSON.parse] after
    [replaceNaN] (below), so a numeric field holds a number or is [null] or
    absent: [None].  Of the numeric fields, those the bubble metrics read
    are kept. *)
Module City.
Record t : Type := Build {
  city : string;
  country : string;
  lat : Q;
  lon : Q;
  resilience_score : option Q;
  cost_of_living_index : option Q;
  one_bedroom_city_rent : option Q;
  delta_temp_c : option Q;
  delta_precip_pct : option Q
}.
End City.

Inductive metric : Type :=
  | resilience_score
  | cost_of_living_index
  | one_bedroom_city_rent
  | delta_temp_c
  | delta_precip_pct.

Record metricDef : Type := MetricDef {
  label : string;
  unit_ : string;
  getValue : City.t → option Q;
  invert : bool
}.

Definition BUBBLE_METRICS (m : metric) : metricDef :=
  match m with
  | resilience_score =>
      MetricDef "Resilience Score" EmptyString City.resilience_score true
  | cost_of_living_index =>
      MetricDef "Cost of Living" EmptyString City.cost_of_living_index false
  | one_bedroom_city_rent =>
      MetricDef "1-Bed Rent" "€" City.one_bedroom_city_rent false
  | delta_temp_c =>
      MetricDef "Temp Change" "°C" City.delta_temp_c false
  | delta_precip_pct =>
      MetricDef "Precip Change" "%"
        (λ d, match City.delta_precip_pct d with
              | Some v => Some (Qabs v)
              | None => None
              end)
        false
  end.

Module Range.
Record t : Type := Build { min : Q; max : Q }.
End Range.

(** [Math.min(...vals)] and [Math.max(...vals)] of at least one number. *)
Definition Math_min_of (v : Q) (vals : list Q) : Q := foldl Qmin v vals.
Definition Math_max_of (v : Q) (vals : list Q) : Q := foldl Qmax v vals.

(** [cities.map(metric.getValue).filter((v) => v != null)] *)
Definition presentValues (cities : list City.t) (m : metricDef) : list Q :=
  omap (getValue m) cities.

(** The effect that keeps [bubbleRange.current]; [cities] is [None] until
    the city file has been loaded. *)
Definition bubbleRange_effect (cities : option (list City.t))
    (bubbleMetric : metric) (current : Range.t) : Range.t :=
  match cities with
  | None => current
  | Some cities =>
      match presentValues cities (BUBBLE_METRICS bubbleMetric) with
      | [] => current
      | v :: vals => Range.Build (Math_min_of v vals) (Math_max_of v vals)
      end
  end.

(** [useRef({ min: 0, max: 1 })] *)
Definition bubbleRange_initial : Range.t := Range.Build 0 1.

(** The range after the effect ran for each (cities, bubbleMetric) in turn. *)
Definition bubbleRange_after (runs : list (option (list City.t) * metric))
  : Range.t :=
  foldl (λ cur '(cities, m), bubbleRange_effect cities m cur)
    bubbleRange_initial runs.

(** The fill colour of a city's bubble, as the layer computes it. *)
Definition cityFillColor (m : metric) (range : Range.t) (d : City.t)
  : outcome rgba :=
  let metric := BUBBLE_METRICS m in
  bubbleColor
    (match getValue metric d with Some v => JNum (Num v) | None => JNull end)
    (Range.min range) (Range.max range) (invert metric).

(** ** The city payload *)

(** [txt.replace(/NaN/g, "null")]: every match of [NaN], leftmost first and
    without overlap, becomes [null]. *)
Fixpoint replaceNaN (txt : string) : string :=
  match txt with
  | String c1 ((String c2 (String c3 rest)) as tl) =>
      if (Ascii.eqb c1 "N"%char && Ascii.eqb c2 "a"%char && Ascii.eqb c3 "N"%char)%bool
      then ("null" +:+ replaceNaN rest)%string
      else String c1 (replaceNaN tl)
  | String c1 tl => String c1 (replaceNaN tl)
  | EmptyString => EmptyString
  end.

(** ** Statements about colours *)



Definition withAlpha (c : rgb) (alpha : Z) : rgba :=
  let '(r, g, b) := c in (r, g, b, alpha).

(** The first and the last stop of a table. *)
Definition firstStop (stops : list stop) : option stop := head stops.
Definition lastStop (stops : list stop) : option stop := last stops.

(** ** Statements about cells *)

(** The cell of grid position (a, b): none outside the grid, none where
    the value is [null] or [undefined], and otherwise the square around
    ([lons[b]], [lats[a]]) with the value and both indices. *)
Definition cellAt (lats lons : list Q) (grid : list (list jsval))
    (a b : nat) : option cell :=
  lat ← lats !! a;
  lon ← lons !! b;
  match grid !! a ≫= (.!! b) with
  | Some (JNum val) => Some (Cell (cellPolygon lon lat) val a b)
  | _ => None
  end.

(** All cells, row by row. *)
Definition rowCells (lats lons : list Q) (grid : list (list jsval))
    (a : nat) : list cell :=
  b ← seq 0 (length lons); option_list (cellAt lats lons grid a b).
Definition allCells (lats lons : list Q) (grid : list (list jsval)) : list cell :=
  a ← seq 0 (length lats); rowCells lats lons grid a.

(** The closed square of half-width [HALF] around a grid point. *)
Definition inSquare (lon lat : Q) (p : Q * Q) : Prop :=
  Qabs (p.1 - lon) <= HALF ∧ Qabs (p.2 - lat) <= HALF.

(** ** Statements about the month cache *)

(** What holds of the state between events: a fetch is in flight only while
    [loading], at most one at a time and never for a cached key, and every
    request issued for a key is accounted for as the one that filled the
    cache, the one in flight, or one that failed. *)
Record consistent (s : state) : Prop := Consistent {
  idle_no_pending : loading s = false → pending s = [];
  one_pending : (length (pending s) ≤ 1)%nat;
  pending_not_cached : ∀ key, key ∈ pending s → cache s !! key = None;
  fetches_accounted : ∀ key,
    fetches key s
    = ((if cache s !! key is Some _ then 1 else 0)
       + count_occ String.string_dec (pending s) key + failures key s)%nat
}.

(** ** Statements about the city payload *)

(** [pat] occurs in [txt]. *)
Definition occursIn (pat txt : string) : Prop :=
  ∃ pre post, txt = (pre +:+ pat +:+ post)%string.

(** The text starts with [NaN]: the test of the first branch of
    [replaceNaN]. *)
Definition startsNaN (txt : string) : bool :=
  match txt with
  | String c1 (String c2 (String c3 _)) =>
      (Ascii.eqb c1 "N"%char && Ascii.eqb c2 "a"%char && Ascii.eqb c3 "N"%char)%bool
  | _ => false
  end.

Fixpoint lastChar (txt : string) : option ascii :=
  match txt with
  | EmptyString => None
  | String c EmptyString => Some c
  | String _ tl => lastChar tl
  end.

(** ** Sample data *)

Definition sample_grid : list (list jsval) :=
  [ [JNum (Num 5); JNull]; [JNum (Num 10); JNum (Num 15)] ].

Definition sample_climate : Climate.t :=
  Climate.Build "jan" [50; 51] [10; 11] sample_grid
    [ [JNum (Num 40); JNull]; [JNum (Num 35); JNum (Num 30)] ]
    [ [JNum (Num 2); JNull]; [JNum (Num 3); JNum (Num 1)] ].

Definition sample_jun : Climate.t :=
  Climate.Build "jun" [50] [10] [ [JNum (Num 17)] ] [ [JNull] ] [ [JNull] ].
Definition sample_jul : Climate.t :=
  Climate.Build "jul" [50] [10] [ [JNum (Num 21)] ] [ [JNull] ] [ [JNull] ].

Definition oslo : City.t :=
  City.Build "Oslo" "Norway" 60 11 None None None (Some 3) (Some (-4)).
Definition rome : City.t :=
  City.Build "Rome" "Italy" 42 12 (Some 40) None None (Some 2) (Some 1).
Definition kyiv : City.t :=
  City.Build "Kyiv" "Ukraine" 50 30 (Some 55) None None None None.

(** ** The bubble legend *)

(** [arr.map((s, i, arr) => ({ ...s, at: i / (arr.length - 1) }))]: the
    stops of [arr] placed at equal distances.  The one table this is
    applied to has three stops, so the divisor is 2. *)
Definition respaced (arr : list stop) : list stop :=
  imap (λ i s, Stop (inject_Z (Z.of_nat i) / (inject_Z (Z.of_nat (length arr)) - 1))
                 (color s)) arr.

(** The stops the bubble legend is drawn from:
    [invert ? [...GREEN_RED_STOPS].reverse().map(...) : GREEN_RED_STOPS]. *)
Definition legendStops (invert : bool) : list stop :=
  if invert then respaced (reverse GREEN_RED_STOPS) else GREEN_RED_STOPS.

(** ** Statements about stop tables *)

(** Every channel of [c] lies in [[lo, hi]]. *)
Definition channelsWithin (lo hi : Z) (c : rgb) : Prop :=
  let '(r, g, b) := c in
  (lo <= r <= hi)%Z ∧ (lo <= g <= hi)%Z ∧ (lo <= b <= hi)%Z.

(** The positions of a table increase strictly. *)
Definition increasing (stops : list stop) : Prop :=
  StronglySorted (λ a b, at_ a < at_ b) stops.

(** ** Hovering the heatmap *)

(** [grid[i][j]] as an expression: it throws when the grid has no row [i]
    and is [undefined] when the row has no column [j]. *)
Definition gridRead (grid : list (list jsval)) (i j : nat) : outcome jsval :=
  match grid !! i with
  | None => TypeError
  | Some row => Ok (default JUndefined (row !! j))
  end.

(** [xs[i]] for an array of numbers. *)
Definition arrayRead (xs : list Q) (i : nat) : jsval :=
  match xs !! i with
  | Some x => JNum (Num x)
  | None => JUndefined
  end.

(** What [setHoverInfo] is given for a grid cell: the pointer position, the
    three variables at the cell's indices and the cell's coordinates. *)
Record gridHover : Type := GridHover {
  hover_x : Q;
  hover_y : Q;
  temp : jsval;
  precip : jsval;
  sun : jsval;
  hover_lat : jsval;
  hover_lon : jsval
}.

(** [onHover] of the heatmap layer: [object] is the picked cell, if any;
    without one the hover state is cleared ([None]). *)
Definition heatmap_onHover (climateData : Climate.t) (object : option cell)
    (x y : Q) : outcome (option gridHover) :=
  match object with
  | Some d =>
      temp ← gridRead (Climate.temperature climateData) (i d) (j d);
      precip ← gridRead (Climate.precipitation climateData) (i d) (j d);
      sun ← gridRead (Climate.sunshine climateData) (i d) (j d);
      Ok (Some (GridHover x y temp precip sun
                  (arrayRead (Climate.lats climateData) (i d))
                  (arrayRead (Climate.lons climateData) (j d))))
  | None => Ok None
  end.

(** The field of a hover record that belongs to a variable. *)
Definition hoverValue (h : gridHover) (v : variable) : jsval :=
  match v with
  | temperature => temp h
  | precipitation => precip h
  | sunshine => sun h
  end.

(** ** More statements about the month cache *)

(** The spinner and the slider against the fetch in flight: a fetch is in
    flight whenever [loading], and it is the one for the month the slider
    shows. *)
Record tracking (s : state) : Prop := Tracking {
  loading_pending : loading s = true → pending s ≠ [];
  pending_month : ∀ key, key ∈ pending s → key = keyOf (month s)
}.

(** While no fetch has failed, an idle page shows the cached dataset of
    the month the slider shows. *)
Definition showsSelected (s : state) : Prop :=
  failed s = [] → loading s = false →
  is_Some (climateData s) ∧ climateData s = cache s !! keyOf (month s).

(** The slider's range: [min={0} max={11}]. *)
Definition onSlider (e : event) : Prop :=
  match e with
  | Select idx => (idx ≤ 11)%nat
  | _ => True
  end.

(** ** Formatting and the tooltip

    [Number.prototype.toFixed] is the platform's: the formatters and the
    tooltip take it as [toFixed], so that what is proved of them holds for
    every implementation.  [toFixed_decimal] is the function itself for
    numbers below 10^21 in magnitude, where its result is the plain decimal
    expansion: the sign, then the digits of the integer [n] nearest to
    [|x| * 10^f] (the larger of two equally near), with the point before the
    last [f] of them. *)

(** [f] decimal digits of [m], leading zeros included. *)
Fixpoint fixedDigits (f : nat) (m : N) : string :=
  match f with
  | O => EmptyString
  | S f' => fixedDigits f' (m / 10) +:+ String (pretty_N_char (m mod 10)) EmptyString
  end.

Definition toFixed_decimal (x : jsnum) (fractionDigits : nat) : string :=
  match x with
  | NaN => "NaN"
  | Num q =>
      let s := if Qle_bool 0 q then EmptyString else "-"%string in
      let n := Z.to_N (Qfloor (Qabs q * inject_Z (10 ^ Z.of_nat fractionDigits) + (1 # 2))) in
      let p := (10 ^ N.of_nat fractionDigits)%N in
      s +:+ pretty (n / p)%N
        +:+ match fractionDigits with
            | O => EmptyString
            | S _ => "." +:+ fixedDigits fractionDigits (n mod p)%N
            end
  end.

(** [v.toFixed(f)] on a value: a [TypeError] on [null] and [undefined]. *)
Definition callToFixed (toFixed : jsnum → nat → string) (v : jsval) (f : nat)
  : outcome string :=
  match v with
  | JNum n => Ok (toFixed n f)
  | JNull | JUndefined => TypeError
  end.

(** [a > b]: false for [NaN]. *)
Definition jgt (a : jsnum) (b : Q) : bool :=
  match a with Num x => negb (Qle_bool x b) | NaN => false end.

Definition fmtPrice (v : jsval) : string :=
  match v with
  | JNum (Num q) => "€" +:+ pretty (Math_round q)
  | JNum NaN => "€NaN"
  | JNull | JUndefined => "N/A"
  end.

Definition fmtTemp (toFixed : jsnum → nat → string) (v : jsval) : string :=
  match v with
  | JNum n => toFixed n 1%nat +:+ "°C"
  | JNull | JUndefined => "N/A"
  end.

Definition fmtPct (toFixed : jsnum → nat → string) (v : jsval) : string :=
  match v with
  | JNum n =>
      (if jgt n 0 then "+" else EmptyString) +:+ toFixed n 1%nat +:+ "%"
  | JNull | JUndefined => "N/A"
  end.

Definition fmtNum (toFixed : jsnum → nat → string) (v : jsval) (dec : nat)
  : string :=
  match v with
  | JNum n => toFixed n dec
  | JNull | JUndefined => "N/A"
  end.

(** [const isNA = value === "N/A"] of [DetailRow]. *)
Definition isNA (value : string) : bool := String.eqb value "N/A".

(** The panel's rows read city fields: a number, or [null]. *)
Definition fieldValue (field : option Q) : jsval :=
  match field with
  | Some q => JNum (Num q)
  | None => JNull
  end.

(** The tooltip of a grid cell: its offset from the pointer and its four
    lines. *)
Record gridTooltip : Type := GridTooltip {
  tip_left : Q;
  tip_top : Q;
  tip_lines : list string
}.

Definition renderGridTooltip (toFixed : jsnum → nat → string) (h : gridHover)
  : outcome gridTooltip :=
  lat ← callToFixed toFixed (hover_lat h) 2%nat;
  lon ← callToFixed toFixed (hover_lon h) 2%nat;
  temp ← callToFixed toFixed (temp h) 1%nat;
  precip ← callToFixed toFixed (precip h) 1%nat;
  sun ← callToFixed toFixed (sun h) 1%nat;
  Ok (GridTooltip (hover_x h + 12) (hover_y h + 12)
        [ lat +:+ "°N, " +:+ lon +:+ "°E";
          "Temperature: " +:+ temp +:+ "°C";
          "Precipitation: " +:+ precip +:+ " mm";
          "Sunshine: " +:+ sun +:+ " h/day" ]).

(** [null] or [undefined]. *)
Definition missing (v : jsval) : Prop := v = JNull ∨ v = JUndefined.

(** ** Grids as they are received

    [climateData] is what [res.json()] resolves to (line 326), and the
    cell loop reads its grid from there (line 404).  JSON has no literal for
    [NaN]: a parsed grid holds numbers and [null] only. *)
Definition parsedGrid (grid : list (list jsval)) : Prop :=
  Forall (Forall (λ v, v ≠ JNum NaN)) grid.

(** ** The spec's scenarios, evaluated *)

Example getColor_cold :
  getColor temperature (Num (-15)) (-15) 35 = Ok (33, 102, 172, 179)%Z.
Proof. reflexivity. Qed.

Example getColor_hot :
  getColor temperature (Num 35) (-15) 35 = Ok (178, 24, 43, 179)%Z.
Proof. reflexivity. Qed.

Example getColor_cool :
  getColor temperature (Num 0) (-15) 35 = Ok (166, 194, 222, 179)%Z.
Proof. reflexivity. Qed.

Example cells_example :
  fmap (M := list) (λ c, (i c, j c)) <$> buildCells [50; 51] [10; 11] sample_grid
  = Ok [(0, 0); (1, 0); (1, 1)]%nat.
Proof. reflexivity. Qed.

Example replaceNaN_example :
  replaceNaN "[1.5, NaN, -2, NaN]" = "[1.5, null, -2, null]"%string.
Proof. reflexivity. Qed.

(** ** Rounding and interpolation *)

Lemma Math_round_between (lo hi : Z) (x : Q) :
  inject_Z lo <= x <= inject_Z hi → (lo <= Math_round x <= hi)%Z.
Proof.
  intros [Hlo Hhi]. unfold Math_round. split.
  - rewrite <- (Qfloor_Z lo). apply Qfloor_resp_le. lra.
  - assert (H : inject_Z (Qfloor (x + (1 # 2))) < inject_Z (hi + 1)).
    { eapply Qle_lt_trans; [apply Qfloor_le|].
      rewrite inject_Z_plus. change (inject_Z 1) with 1. lra. }
    rewrite <- Zlt_Qlt in H. lia.
Qed.

Lemma Math_round_inject (z : Z) : Math_round (inject_Z z) = z.
Proof.
  assert (H : (z <= Math_round (inject_Z z) <= z)%Z)
    by (apply Math_round_between; lra).
  lia.
Qed.

Lemma lerp_channel_between (a b : Z) (t : Q) :
  0 <= t <= 1 →
  (Z.min a b <= Math_round (inject_Z a + (inject_Z b - inject_Z a) * t)
   <= Z.max a b)%Z.
Proof.
  intros Ht. apply Math_round_between.
  destruct (Z.le_ge_cases a b) as [Hab | Hab].
  - rewrite Z.min_l, Z.max_r by lia. rewrite Zle_Qle in Hab. nra.
  - rewrite Z.min_r, Z.max_l by lia. rewrite Zle_Qle in Hab. nra.
Qed.





(** The interpolation weight of a ratio between two stops. *)
Lemma weight_unit (q lo hi : Q) :
  lo < q → q <= hi → 0 <= (q - lo) / (hi - lo) <= 1.
Proof.
  intros H1 H2.
  assert (Hd : ¬ hi - lo == 0) by lra.
  assert (Hs : (q - lo) / (hi - lo) * (hi - lo) == q - lo) by (field; exact Hd).
  nra.
Qed.

(** ** The stop table lookup *)

Lemma stopLoop_sound (stops : list stop) (q : Q) (final : rgb) :
  (∀ a, head stops = Some a → at_ a < q) →
  (∃ k a b, stops !! k = Some a ∧ stops !! S k = Some b ∧
            at_ a < q ∧ q <= at_ b ∧
            stopLoop (Num q) stops final
            = Ok (lerp (color a) (color b) ((q - at_ a) / (at_ b - at_ a))))
  ∨ (stopLoop (Num q) stops final = Ok final ∧ ∀ s, s ∈ stops → at_ s < q).
Proof.
  induction stops as [|a stops IH]; intros Hhead.
  - right. split; [reflexivity|]. intros s Hs. inversion Hs.
  - destruct stops as [|b rest].
    + right. split; [reflexivity|]. intros s Hs.
      apply list_elem_of_singleton in Hs as ->. apply Hhead. reflexivity.
    + assert (Ha : at_ a < q) by (apply Hhead; reflexivity).
      cbn [stopLoop]. destruct (Qle_bool q (at_ b)) eqn:E.
      * left. exists 0%nat, a, b. apply Qle_bool_iff in E.
        repeat split; try assumption.
        unfold qdiv. destruct (Qeq_bool (at_ b - at_ a) 0) eqn:E0; [|reflexivity].
        apply Qeq_bool_eq in E0. lra.
      * assert (Hb : at_ b < q).
        { apply Qnot_le_lt. intros H. apply Qle_bool_iff in H. congruence. }
        destruct IH as [(k & x & y & Hx & Hy & H1 & H2 & H3) | [H1 H2]].
        { intros s [= <-]. exact Hb. }
        -- left. exists (S k), x, y. repeat split; assumption.
        -- right. split; [exact H1|]. intros s Hs.
           apply elem_of_cons in Hs as [-> | Hs]; [exact Ha | apply H2, Hs].
Qed.

Lemma last_default (stops : list stop) (d : stop) :
  stops ≠ [] → last stops = Some (List.last stops d).
Proof.
  induction stops as [|a [|b rest] IH]; intros Hne; [done | done |].
  change (last (a :: b :: rest)) with (last (b :: rest)).
  change (List.last (a :: b :: rest) d) with (List.last (b :: rest) d).
  apply IH. done.
Qed.

(** The three ways [multiStopColor] answers for a finite ratio. *)
Lemma multiStopColor_cases (stops : list stop) (first : stop) (q : Q) :
  head stops = Some first →
  (q <= at_ first ∧ multiStopColor (Num q) stops = Ok (color first))
  ∨ (∃ l, last stops = Some l ∧ at_ first < q ∧ at_ l <= q ∧
          multiStopColor (Num q) stops = Ok (color l))
  ∨ (∃ k a b, stops !! k = Some a ∧ stops !! S k = Some b ∧
              at_ a < q ∧ q <= at_ b ∧
              multiStopColor (Num q) stops
              = Ok (lerp (color a) (color b) ((q - at_ a) / (at_ b - at_ a)))).
Proof.
  destruct stops as [|s0 rest]; [done|]. intros [= ->].
  unfold multiStopColor, jle, jge.
  destruct (Qle_bool q (at_ first)) eqn:E1.
  { left. apply Qle_bool_iff in E1. done. }
  assert (H1 : at_ first < q).
  { apply Qnot_le_lt. intros H. apply Qle_bool_iff in H. congruence. }
  pose proof (last_default (first :: rest) first) as Hlast.
  cbv zeta. set (l := List.last (first :: rest) first) in *.
  destruct (Qle_bool (at_ l) q) eqn:E2.
  { right; left. exists l. apply Qle_bool_iff in E2. split; [by apply Hlast|done]. }
  right; right.
  destruct (stopLoop_sound (first :: rest) q (color l)) as [H | [_ H]].
  { intros a [= <-]. exact H1. }
  - exact H.
  - exfalso. assert (Hl : at_ l < q).
    { apply H. apply list_elem_of_lookup. exists (pred (length (first :: rest))).
      rewrite <- last_lookup. by apply Hlast. }
    assert (at_ l <= q) by lra. apply Qle_bool_iff in H0. congruence.
Qed.

Lemma multiStopColor_NaN (stops : list stop) (first : stop) :
  head stops = Some first →
  multiStopColor NaN stops = Ok (color (List.last stops first)).
Proof.
  destruct stops as [|s0 rest]; [done|]. intros [= ->].
  unfold multiStopColor, jle, jge. generalize (color (List.last (first :: rest) first)).
  generalize (first :: rest). clear. intros l c.
  induction l as [|a [|b l] IH]; [done | done |]. exact IH.
Qed.

Lemma multiStopColor_low (stops : list stop) (first : stop) (q : Q) :
  head stops = Some first → q <= at_ first →
  multiStopColor (Num q) stops = Ok (color first).
Proof.
  destruct stops as [|s0 rest]; [done|]. intros [= ->] Hq.
  unfold multiStopColor, jle. apply Qle_bool_iff in Hq. by rewrite Hq.
Qed.

Lemma multiStopColor_high (stops : list stop) (first l : stop) (q : Q) :
  head stops = Some first → last stops = Some l →
  at_ first < q → at_ l <= q →
  multiStopColor (Num q) stops = Ok (color l).
Proof.
  destruct stops as [|s0 rest]; [done|]. intros [= ->] Hl H1 H2.
  assert (Hd : List.last (first :: rest) first = l).
  { rewrite (last_default _ first) in Hl by done. congruence. }
  unfold multiStopColor, jle, jge. cbv zeta. rewrite Hd.
  destruct (Qle_bool q (at_ first)) eqn:E1.
  { apply Qle_bool_iff in E1. lra. }
  apply Qle_bool_iff in H2. by rewrite H2.
Qed.

(** ** The clamped ratio *)

Lemma clampedRatio_degenerate (value : jsnum) (lo hi : Q) :
  lo == hi → clampedRatio value lo hi = Ok (Num (1 # 2)).
Proof.
  intros H. unfold clampedRatio.
  assert (E : Qeq_bool (hi - lo) 0 = true) by (apply Qeq_bool_iff; lra).
  by rewrite E.
Qed.

Lemma clampedRatio_proper (value lo hi : Q) :
  ¬ lo == hi →
  clampedRatio (Num value) lo hi
  = Ok (Num (Qmax 0 (Qmin 1 ((value - lo) / (hi - lo))))).
Proof.
  intros H. unfold clampedRatio, jdiv, jsub, qdiv.
  destruct (Qeq_bool (hi - lo) 0) eqn:E; [|reflexivity].
  apply Qeq_bool_eq in E. exfalso. apply H. lra.
Qed.

Lemma clampedRatio_NaN (lo hi : Q) :
  ¬ lo == hi → clampedRatio NaN lo hi = Ok NaN.
Proof.
  intros H. unfold clampedRatio, jdiv, jsub.
  destruct (Qeq_bool (hi - lo) 0) eqn:E; [|reflexivity].
  apply Qeq_bool_eq in E. exfalso. apply H. lra.
Qed.

(** The quotient [(value - lo) / (hi - lo)] against 0 and 1. *)
Lemma quotient_sign (value lo hi : Q) :
  lo < hi →
  (value <= lo → (value - lo) / (hi - lo) <= 0) ∧
  (lo <= value → 0 <= (value - lo) / (hi - lo)) ∧
  (value <= hi → (value - lo) / (hi - lo) <= 1) ∧
  (hi <= value → 1 <= (value - lo) / (hi - lo)).
Proof.
  intros H.
  assert (Hd : ¬ hi - lo == 0) by lra.
  assert (Hs : (value - lo) / (hi - lo) * (hi - lo) == value - lo)
    by (field; exact Hd).
  repeat split; intros; nra.
Qed.

Lemma clamp_unit (x : Q) : 0 <= Qmax 0 (Qmin 1 x) <= 1.
Proof.
  split; [apply Q.le_max_l|].
  apply Q.max_lub; [lra | apply Q.le_min_l].
Qed.


Lemma clamp_below (x : Q) : x <= 0 → Qmax 0 (Qmin 1 x) == 0.
Proof.
  intros H. apply Q.max_l. eapply Qle_trans; [apply Q.le_min_r | exact H].
Qed.

Lemma clamp_above (x : Q) : 1 <= x → Qmax 0 (Qmin 1 x) == 1.
Proof.
  intros H. rewrite Q.min_l by exact H. apply Q.max_r. lra.
Qed.

(** ** The two colour functions *)

Lemma getColor_eq (v : variable) (value ratio : jsnum) (lo hi : Q) (c : rgb) :
  clampedRatio value lo hi = Ok ratio →
  multiStopColor ratio (STOP_MAP v) = Ok c →
  getColor v value lo hi = Ok (withAlpha c 179).
Proof.
  intros Hr Hc. unfold getColor, mbind, outcome_bind. rewrite Hr, Hc.
  by destruct c as [[r g] b].
Qed.

Lemma bubbleColor_eq (value ratio : jsnum) (lo hi : Q) (inv : bool) (c : rgb) :
  clampedRatio value lo hi = Ok ratio →
  multiStopColor (if inv then jrsub 1 ratio else ratio) GREEN_RED_STOPS = Ok c →
  bubbleColor (JNum value) lo hi inv = Ok (withAlpha c 220).
Proof.
  intros Hr Hc. unfold bubbleColor, mbind, outcome_bind. rewrite Hr.
  cbv zeta. rewrite Hc. by destruct c as [[r g] b].
Qed.





(** The heatmap's own domains are proper; a cell holding [NaN] is drawn
    in the last stop's colour. *)
Lemma fixed_domain_proper (v : variable) : fixedMin v < fixedMax v.
Proof. by destruct v. Qed.

Lemma cellFillColor_NaN (v : variable) (d : cell) :
  value d = NaN →
  ∃ s, lastStop (STOP_MAP v) = Some s ∧
       cellFillColor v d = Ok (withAlpha (color s) 179).
Proof.
  intros Hd. unfold cellFillColor. rewrite Hd.
  destruct v; eexists; (split; [reflexivity|]); reflexivity.
Qed.

Lemma clampedRatio_total (value : jsnum) (lo hi : Q) :
  ∃ ratio, clampedRatio value lo hi = Ok ratio.
Proof.
  destruct (Qeq_dec lo hi) as [H | H].
  - eexists. by apply clampedRatio_degenerate.
  - destruct value as [q|]; eexists.
    + by apply clampedRatio_proper.
    + by apply clampedRatio_NaN.
Qed.

(** C3 (as amended): on a degenerate domain, [lo == hi], neither colour
    function divides by zero for a present value, a number or [NaN]:
    the ratio is 1/2 and the colour is the one the stop table gives at 1/2. *)
Theorem degenerate_domain_midpoint
    (v : variable) (value : jsnum) (lo hi : Q) (inv : bool) :
  lo == hi →
  clampedRatio value lo hi = Ok (Num (1 # 2)) ∧
  (∃ c, multiStopColor (Num (1 # 2)) (STOP_MAP v) = Ok c ∧
        getColor v value lo hi = Ok (withAlpha c 179)) ∧
  (∃ c, multiStopColor (Num (1 # 2)) GREEN_RED_STOPS = Ok c ∧
        bubbleColor (JNum value) lo hi inv = Ok (withAlpha c 220)).
Proof.
  intros H. pose proof (clampedRatio_degenerate value lo hi H) as Hr.
  split; [exact Hr|]. split.
  - destruct v; eexists; (split; [vm_compute; reflexivity|]);
      (eapply getColor_eq; [exact Hr | vm_compute; reflexivity]).
  - exists (255, 200, 0)%Z. split; [vm_compute; reflexivity|].
    eapply bubbleColor_eq; [exact Hr|]. by destruct inv.
Qed.

Lemma degenerate_domain_midpoint_witness :
  7 == 7 ∧
  getColor precipitation (Num 3) 7 7 = Ok (56, 159, 185, 179)%Z ∧
  bubbleColor (JNum NaN) 7 7 true = Ok (255, 200, 0, 220)%Z.
Proof.
  assert (H : 7 == 7) by reflexivity.
  split; [exact H|].
  split.
  - destruct (degenerate_domain_midpoint precipitation (Num 3) 7 7 true H)
      as (_ & (c & Hc & Hg) & _).
    rewrite Hg. vm_compute in Hc. by injection Hc as <-.
  - destruct (degenerate_domain_midpoint precipitation NaN 7 7 true H)
      as (_ & _ & (c & Hc & Hb)).
    rewrite Hb. vm_compute in Hc. by injection Hc as <-.
Defined.

(** C3 (as stated) fails for a missing value: on the domain [3, 3] the
    bubble colour of [null] is the neutral gray, not the gradient's colour
    at 1/2. *)
Lemma bubbleColor_missing_degenerate_not_midpoint :
  3 == 3 ∧
  bubbleColor JNull 3 3 false = Ok (160, 160, 160, 220)%Z ∧
  ∀ c, multiStopColor (Num (1 # 2)) GREEN_RED_STOPS = Ok c →
       bubbleColor JNull 3 3 false ≠ Ok (withAlpha c 220).
Proof.
  split; [reflexivity|]. split; [reflexivity|].
  intros c Hc. vm_compute in Hc. injection Hc as <-. discriminate.
Qed.

Lemma bubbleColor_low (v lo hi : Q) (inv : bool) :
  lo < hi → v <= lo →
  bubbleColor (JNum (Num v)) lo hi inv
  = Ok (if inv then (200, 30, 30, 220)%Z else (34, 139, 34, 220)%Z).
Proof.
  intros Hdom Hv.
  assert (Hne : ¬ lo == hi) by lra.
  pose proof (clampedRatio_proper v lo hi Hne) as Hr.
  pose proof (quotient_sign v lo hi Hdom) as (Q1 & _ & _ & _).
  assert (H0 : Qmax 0 (Qmin 1 ((v - lo) / (hi - lo))) == 0)
    by (apply clamp_below, Q1, Hv).
  destruct inv.
  - change (200, 30, 30, 220)%Z with (withAlpha (200, 30, 30)%Z 220).
    eapply bubbleColor_eq; [exact Hr|]. cbn [jrsub].
    apply (multiStopColor_high _ (Stop 0 (34, 139, 34)%Z) (Stop 1 (200, 30, 30)%Z));
      [reflexivity | reflexivity | cbn [at_]; lra | cbn [at_]; lra].
  - change (34, 139, 34, 220)%Z with (withAlpha (34, 139, 34)%Z 220).
    eapply bubbleColor_eq; [exact Hr|].
    apply (multiStopColor_low _ (Stop 0 (34, 139, 34)%Z)); [reflexivity|].
    cbn [at_]. lra.
Qed.

Lemma bubbleColor_high (v lo hi : Q) (inv : bool) :
  lo < hi → hi <= v →
  bubbleColor (JNum (Num v)) lo hi inv
  = Ok (if inv then (34, 139, 34, 220)%Z else (200, 30, 30, 220)%Z).
Proof.
  intros Hdom Hv.
  assert (Hne : ¬ lo == hi) by lra.
  pose proof (clampedRatio_proper v lo hi Hne) as Hr.
  pose proof (quotient_sign v lo hi Hdom) as (_ & _ & _ & Q4).
  assert (H1 : Qmax 0 (Qmin 1 ((v - lo) / (hi - lo))) == 1)
    by (apply clamp_above, Q4, Hv).
  destruct inv.
  - change (34, 139, 34, 220)%Z with (withAlpha (34, 139, 34)%Z 220).
    eapply bubbleColor_eq; [exact Hr|]. cbn [jrsub].
    apply (multiStopColor_low _ (Stop 0 (34, 139, 34)%Z)); [reflexivity|].
    cbn [at_]. lra.
  - change (200, 30, 30, 220)%Z with (withAlpha (200, 30, 30)%Z 220).
    eapply bubbleColor_eq; [exact Hr|].
    apply (multiStopColor_high _ (Stop 0 (34, 139, 34)%Z) (Stop 1 (200, 30, 30)%Z));
      [reflexivity | reflexivity | cbn [at_]; lra | cbn [at_]; lra].
Qed.

Lemma bubbleColor_lookup (value ratio : jsnum) (lo hi : Q) (inv : bool) :
  clampedRatio value lo hi = Ok ratio →
  bubbleColor (JNum value) lo hi inv
  = (c ← multiStopColor (if inv then jrsub 1 ratio else ratio) GREEN_RED_STOPS;
     Ok (withAlpha c 220)).
Proof.
  intros Hr. unfold bubbleColor, mbind, outcome_bind. rewrite Hr. cbv zeta.
  by destruct (multiStopColor _ GREEN_RED_STOPS) as [[[r g] b]| |].
Qed.

(** C6: the flag reflects the clamped ratio.  For a number [value] the
    lookup without the flag is at [ratio], a number from 0 to 1 that on a
    proper domain is [(value - lo) / (hi - lo)] clamped to that interval,
    and the lookup with the flag is at [1 - ratio]; for [NaN], which
    [1 - ratio] leaves [NaN], the flag changes nothing.  So on a proper
    domain a value at [hi] or above is drawn in the green first stop's
    colour with the flag and in the red last stop's without it, and a value
    at [lo] or below the other way round. *)
Theorem bubbleColor_inverted (value lo hi : Q) :
  (∃ ratio : Q,
     clampedRatio (Num value) lo hi = Ok (Num ratio) ∧
     0 <= ratio <= 1 ∧
     (lo < hi → ratio = Qmax 0 (Qmin 1 ((value - lo) / (hi - lo)))) ∧
     bubbleColor (JNum (Num value)) lo hi false
     = (c ← multiStopColor (Num ratio) GREEN_RED_STOPS; Ok (withAlpha c 220)) ∧
     bubbleColor (JNum (Num value)) lo hi true
     = (c ← multiStopColor (Num (1 - ratio)) GREEN_RED_STOPS;
        Ok (withAlpha c 220)))
  ∧ bubbleColor (JNum NaN) lo hi true = bubbleColor (JNum NaN) lo hi false
  ∧ (lo < hi →
     firstStop GREEN_RED_STOPS = Some (Stop 0 (34, 139, 34)%Z) ∧
     lastStop GREEN_RED_STOPS = Some (Stop 1 (200, 30, 30)%Z) ∧
     (hi <= value →
      bubbleColor (JNum (Num value)) lo hi true = Ok (34, 139, 34, 220)%Z ∧
      bubbleColor (JNum (Num value)) lo hi false = Ok (200, 30, 30, 220)%Z) ∧
     (value <= lo →
      bubbleColor (JNum (Num value)) lo hi true = Ok (200, 30, 30, 220)%Z ∧
      bubbleColor (JNum (Num value)) lo hi false = Ok (34, 139, 34, 220)%Z)).
Proof.
  split; [|split].
  - destruct (Qeq_dec lo hi) as [Heq | Hne].
    + pose proof (clampedRatio_degenerate (Num value) lo hi Heq) as Hr.
      exists (1 # 2). split; [exact Hr|]. split; [lra|].
      split; [intros Hlt; lra|].
      split; exact (bubbleColor_lookup _ _ lo hi _ Hr).
    + pose proof (clampedRatio_proper value lo hi Hne) as Hr.
      eexists. split; [exact Hr|]. split; [apply clamp_unit|].
      split; [reflexivity|].
      split; exact (bubbleColor_lookup _ _ lo hi _ Hr).
  - destruct (Qeq_dec lo hi) as [Heq | Hne].
    + by rewrite !(bubbleColor_lookup NaN _ lo hi _
                     (clampedRatio_degenerate NaN lo hi Heq)).
    + by rewrite !(bubbleColor_lookup NaN _ lo hi _ (clampedRatio_NaN lo hi Hne)).
  - intros Hdom. split; [reflexivity|]. split; [reflexivity|].
    split; intros Hv.
    + split; [exact (bubbleColor_high value lo hi true Hdom Hv)
             | exact (bubbleColor_high value lo hi false Hdom Hv)].
    + split; [exact (bubbleColor_low value lo hi true Hdom Hv)
             | exact (bubbleColor_low value lo hi false Hdom Hv)].
Qed.

Lemma bubbleColor_inverted_witness :
  20 < 80 ∧ 80 <= 80 ∧
  bubbleColor (JNum (Num 80)) 20 80 true = Ok (34, 139, 34, 220)%Z ∧
  bubbleColor (JNum (Num 80)) 20 80 false = Ok (200, 30, 30, 220)%Z.
Proof.
  assert (H : 20 < 80) by reflexivity.
  assert (H' : 80 <= 80) by discriminate.
  split; [exact H|]. split; [exact H'|].
  destruct (bubbleColor_inverted 80 20 80) as (_ & _ & Hhi).
  destruct (Hhi H) as (_ & _ & Htop & _).
  exact (Htop H').
Defined.

Lemma lerp_blue (a b : rgb) (t : Q) :
  0 <= t <= 1 → (Z.min a.2 b.2 <= (lerp a b t).2 <= Z.max a.2 b.2)%Z.
Proof.
  intros Ht. destruct a as [[a0 a1] a2], b as [[b0 b1] b2]. cbn [lerp snd].
  by apply lerp_channel_between.
Qed.

(** Every colour of the green, yellow, red gradient has a blue channel of
    at most 34. *)
Lemma GREEN_RED_blue (ratio : jsnum) :
  ∃ c, multiStopColor ratio GREEN_RED_STOPS = Ok c ∧ (0 <= c.2 <= 34)%Z.
Proof.
  destruct ratio as [q|]; [|eexists; split; [vm_compute; reflexivity | cbn; lia]].
  destruct (multiStopColor_cases GREEN_RED_STOPS (Stop 0 (34, 139, 34)%Z) q eq_refl)
    as [[_ Hc] | [(l & Hl & _ & _ & Hc) | (k & a & b & Ha & Hb & Hq1 & Hq2 & Hc)]].
  - eexists. split; [exact Hc|]. cbn. lia.
  - injection Hl as <-. eexists. split; [exact Hc|]. cbn. lia.
  - pose proof (lerp_blue (color a) (color b) _ (weight_unit q _ _ Hq1 Hq2)) as Hb2.
    remember (lerp (color a) (color b) ((q - at_ a) / (at_ b - at_ a))) as c eqn:Ec.
    exists c. split; [exact Hc|]. clear Ec Hc Hq1 Hq2.
    destruct k as [|[|k]]; simpl in Ha, Hb; simplify_eq; cbn in Hb2; lia.
Qed.

Lemma bubbleColor_number (n : jsnum) (lo hi : Q) (inv : bool) :
  ∃ c, bubbleColor (JNum n) lo hi inv = Ok (withAlpha c 220) ∧ (0 <= c.2 <= 34)%Z.
Proof.
  destruct (clampedRatio_total n lo hi) as [ratio Hr].
  destruct (GREEN_RED_blue (if inv then jrsub 1 ratio else ratio)) as (c & Hc & Hb).
  exists c. split; [by eapply bubbleColor_eq | exact Hb].
Qed.

(** C7: whatever the domain, a missing value, [null] or [undefined], is
    drawn in the gray (160, 160, 160) with the bubbles' alpha, a colour the
    green, yellow, red gradient produces at no ratio, so no present value
    is drawn in it. *)
Theorem bubbleColor_missing_gray (lo hi : Q) (inv : bool) :
  bubbleColor JNull lo hi inv = Ok (160, 160, 160, 220)%Z ∧
  bubbleColor JUndefined lo hi inv = Ok (160, 160, 160, 220)%Z ∧
  (∀ ratio : jsnum,
     ∃ c, multiStopColor ratio GREEN_RED_STOPS = Ok c ∧ c ≠ (160, 160, 160)%Z) ∧
  (∀ n : jsnum,
     ∃ c, bubbleColor (JNum n) lo hi inv = Ok c ∧ c ≠ (160, 160, 160, 220)%Z).
Proof.
  split; [reflexivity|]. split; [reflexivity|]. split.
  - intros ratio. destruct (GREEN_RED_blue ratio) as (c & Hc & Hb).
    exists c. split; [exact Hc|]. intros ->. cbn in Hb. lia.
  - intros n. destruct (bubbleColor_number n lo hi inv) as (c & Hc & Hb).
    exists (withAlpha c 220). split; [exact Hc|].
    destruct c as [[r g] b]. cbn in *. intros [= -> -> ->]. lia.
Qed.

(** ** The cell loops *)

Lemma colLoop_spec (lats : list Q) (grid : list (list jsval))
    (a : nat) (lat : Q) (row : list jsval) :
  lats !! a = Some lat → grid !! a = Some row →
  ∀ (lons pre : list Q) (cells : list cell),
    colLoop grid lat a lons (length pre) cells
    = Ok (cells ++ (b ← seq (length pre) (length lons);
                    option_list (cellAt lats (pre ++ lons) grid a b))).
Proof.
  intros Hlat Hrow lons.
  induction lons as [|lon lons IH]; intros pre cells.
  - cbn. by rewrite app_nil_r.
  - cbn [colLoop]. rewrite Hrow.
    assert (Hcell :
      cellAt lats (pre ++ lon :: lons) grid a (length pre)
      = match row !! length pre with
        | Some (JNum val) => Some (Cell (cellPolygon lon lat) val a (length pre))
        | _ => None
        end).
    { unfold cellAt. rewrite Hlat, list_lookup_middle by done. cbn.
      by rewrite Hrow. }
    specialize (IH (pre ++ [lon])).
    rewrite length_app, Nat.add_1_r, <- app_assoc in IH. cbn [app] in IH.
    cbn [length seq]. rewrite bind_cons, Hcell.
    destruct (row !! length pre) as [[| |val]|]; rewrite IH; cbn [option_list].
    + done.
    + done.
    + by rewrite <- app_assoc.
    + done.
Qed.

Lemma colLoop_no_row (grid : list (list jsval)) (a : nat) (lat : Q)
    (lons : list Q) (b : nat) (cells : list cell) :
  grid !! a = None → lons ≠ [] → colLoop grid lat a lons b cells = TypeError.
Proof.
  intros Hrow Hlons. destruct lons as [|lon lons]; [done|].
  cbn [colLoop]. by rewrite Hrow.
Qed.

Lemma rowLoop_spec (lons : list Q) (grid : list (list jsval)) :
  lons ≠ [] →
  ∀ (lats pre : list Q) (cells : list cell),
    rowLoop grid lats (length pre) lons cells
    = if decide (length lats = 0 ∨ length pre + length lats ≤ length grid)%nat
      then Ok (cells ++ (a ← seq (length pre) (length lats);
                         rowCells (pre ++ lats) lons grid a))
      else TypeError.
Proof.
  intros Hlons lats.
  induction lats as [|lat lats IH]; intros pre cells.
  - cbn [rowLoop length seq]. rewrite decide_True by (by left).
    by rewrite app_nil_r.
  - cbn [rowLoop]. destruct (grid !! length pre) as [row|] eqn:Hrow.
    + pose proof (lookup_lt_Some _ _ _ Hrow) as Hlt.
      rewrite (colLoop_spec (pre ++ lat :: lats) grid (length pre) lat row
                 (list_lookup_middle _ _ _ _ eq_refl) Hrow lons []).
      cbn [length app]. unfold mbind at 1, outcome_bind.
      specialize (IH (pre ++ [lat])).
      rewrite length_app, Nat.add_1_r, <- app_assoc in IH. cbn [app] in IH.
      rewrite IH. cbn [length].
      destruct (decide (length lats = 0 ∨ S (length pre) + length lats ≤ length grid)%nat)
        as [Hd | Hd].
      * rewrite decide_True by lia.
        cbn [seq]. rewrite bind_cons. unfold rowCells at 3.
        by rewrite <- app_assoc.
      * rewrite decide_False by lia. done.
    + pose proof (lookup_ge_None_1 _ _ Hrow) as Hge.
      rewrite colLoop_no_row by done. cbn [length].
      rewrite decide_False by lia. done.
Qed.

Lemma buildCells_spec (lats lons : list Q) (grid : list (list jsval)) :
  buildCells lats lons grid
  = if decide (length lons = 0 ∨ length lats = 0 ∨ length lats ≤ length grid)%nat
    then Ok (allCells lats lons grid)
    else TypeError.
Proof.
  unfold buildCells. destruct lons as [|lon lons].
  - rewrite decide_True by (by left).
    assert (H : ∀ lats a cells, rowLoop grid lats a [] cells = Ok cells).
    { clear. intros lats. induction lats as [|lat lats IH]; intros a cells;
        [done | apply IH]. }
    rewrite H. unfold allCells, rowCells. cbn [length seq].
    f_equal. symmetry.
    induction (seq 0 (length lats)) as [|a l IH]; [done|].
    rewrite bind_cons. exact IH.
  - pose proof (rowLoop_spec (lon :: lons) grid ltac:(done) lats [] []) as H.
    cbn [length app Nat.add] in H. rewrite H. unfold allCells. cbn [length].
    destruct (decide (length lats = 0 ∨ length lats ≤ length grid)%nat).
    + rewrite decide_True by lia. done.
    + rewrite decide_False by lia. done.
Qed.

Lemma filter_all {A} (P : A → Prop) `{!∀ x, Decision (P x)} (l : list A) :
  (∀ x, x ∈ l → P x) → filter P l = l.
Proof.
  induction l as [|x l IH]; intros Hall; [done|].
  rewrite filter_cons_True by (apply Hall; left).
  f_equal. apply IH. intros y Hy. apply Hall. by right.
Qed.

Lemma filter_none {A} (P : A → Prop) `{!∀ x, Decision (P x)} (l : list A) :
  (∀ x, x ∈ l → ¬ P x) → filter P l = [].
Proof.
  induction l as [|x l IH]; intros Hall; [done|].
  rewrite filter_cons_False by (apply Hall; left).
  apply IH. intros y Hy. apply Hall. by right.
Qed.

(** Selecting by key from a list built key by key. *)
Lemma filter_bind_key {A} (f : nat → list A) (key : A → nat) (k : nat)
    (l : list nat) :
  NoDup l → (∀ n x, x ∈ f n → key x = n) →
  filter (λ x, key x = k) (n ← l; f n) = if decide (k ∈ l) then f k else [].
Proof.
  intros Hnd Hkey. induction Hnd as [|n l Hn Hnd IH].
  - done.
  - rewrite bind_cons, filter_app, IH.
    destruct (decide (n = k)) as [-> | Hne].
    + rewrite (decide_False (P := k ∈ l)) by done.
      rewrite (decide_True (P := k ∈ k :: l)) by left.
      rewrite app_nil_r. apply filter_all. intros x Hx. by apply Hkey.
    + rewrite filter_none.
      2:{ intros x Hx Hk. apply Hkey in Hx. congruence. }
      cbn [app]. destruct (decide (k ∈ l)) as [Hin | Hin].
      * rewrite decide_True by (by right). done.
      * rewrite decide_False; [done|]. intros [-> | H]%elem_of_cons; done.
Qed.

Lemma cellAt_Some (lats lons : list Q) (grid : list (list jsval))
    (a b : nat) (c : cell) :
  cellAt lats lons grid a b = Some c →
  ∃ lat lon val,
    lats !! a = Some lat ∧ lons !! b = Some lon ∧
    grid !! a ≫= (.!! b) = Some (JNum val) ∧
    c = Cell (cellPolygon lon lat) val a b.
Proof.
  unfold cellAt. intros H.
  destruct (lats !! a) as [lat|]; [|done].
  destruct (lons !! b) as [lon|]; [|done]. cbn in H.
  destruct (grid !! a ≫= (.!! b)) as [[| |val]|]; try done.
  injection H as <-. by exists lat, lon, val.
Qed.

Lemma elem_of_rowCells (lats lons : list Q) (grid : list (list jsval))
    (a : nat) (c : cell) :
  c ∈ rowCells lats lons grid a ↔
  ∃ b, cellAt lats lons grid a b = Some c.
Proof.
  unfold rowCells. rewrite list_elem_of_bind. split.
  - intros (b & Hc & _). exists b.
    destruct (cellAt lats lons grid a b); [|by inversion Hc].
    apply list_elem_of_singleton in Hc. by subst.
  - intros (b & Hc). exists b. rewrite Hc. split; [by left|].
    apply cellAt_Some in Hc as (lat & lon & val & _ & Hlon & _).
    apply elem_of_seq. apply lookup_lt_Some in Hlon. lia.
Qed.

Lemma elem_of_allCells (lats lons : list Q) (grid : list (list jsval)) (c : cell) :
  c ∈ allCells lats lons grid ↔
  ∃ a b, cellAt lats lons grid a b = Some c.
Proof.
  unfold allCells. rewrite list_elem_of_bind. split.
  - intros (a & Hc & _). exists a. by apply elem_of_rowCells.
  - intros (a & b & Hc). exists a. split; [apply elem_of_rowCells; by exists b|].
    apply cellAt_Some in Hc as (lat & lon & val & Hlat & _).
    apply elem_of_seq. apply lookup_lt_Some in Hlat. lia.
Qed.

Lemma allCells_at (lats lons : list Q) (grid : list (list jsval)) (a b : nat) :
  filter (λ c, i c = a ∧ j c = b) (allCells lats lons grid)
  = option_list (cellAt lats lons grid a b).
Proof.
  rewrite (list_filter_iff _ (λ c, j c = b ∧ i c = a)) by (intros c; tauto).
  rewrite <- (list_filter_filter (λ c, j c = b) (λ c, i c = a)).
  unfold allCells.
  rewrite (filter_bind_key (rowCells lats lons grid) i a).
  2: apply NoDup_seq.
  2:{ intros n c (b' & Hc)%elem_of_rowCells.
      by apply cellAt_Some in Hc as (? & ? & ? & _ & _ & _ & ->). }
  destruct (decide (a ∈ seq 0 (length lats))) as [Ha | Ha].
  - unfold rowCells.
    rewrite (filter_bind_key
               (λ b, option_list (cellAt lats lons grid a b)) j b).
    2: apply NoDup_seq.
    2:{ intros n c Hc. destruct (cellAt lats lons grid a n) eqn:E;
          [|by inversion Hc].
        apply list_elem_of_singleton in Hc as ->.
        by apply cellAt_Some in E as (? & ? & ? & _ & _ & _ & ->). }
    destruct (decide (b ∈ seq 0 (length lons))) as [Hb | Hb]; [done|].
    unfold cellAt. rewrite elem_of_seq in Hb.
    rewrite (lookup_ge_None_2 lons b) by lia.
    by destruct (lats !! a).
  - rewrite filter_nil. unfold cellAt. rewrite elem_of_seq in Ha.
    by rewrite (lookup_ge_None_2 lats a) by lia.
Qed.

Lemma parsedGrid_lookup (grid : list (list jsval)) (a b : nat) (v : jsval) :
  parsedGrid grid → grid !! a ≫= (.!! b) = Some v → v ≠ JNum NaN.
Proof.
  intros Hgrid Hv. destruct (grid !! a) as [row|] eqn:Ea; [|done].
  cbn in Hv. unfold parsedGrid in Hgrid.
  pose proof (Forall_lookup_1 _ _ _ _ Hgrid Ea) as Hrow.
  exact (Forall_lookup_1 _ _ _ _ Hrow Hv).
Qed.

(** C2: for a received grid with a row for every latitude, the loop ends
    without an exception and its cells hold, for every position (a, b),
    exactly one cell when the value at that position is present, that is a
    number and not [null], [NaN] or [undefined], and none otherwise; the
    cell carries the value and both indices.  The loop itself tests for
    [null] and [undefined]; that no entry is [NaN] is a property of the
    parsed grid.  For [lats = [50, 51]], [lons = [10, 11]] and
    [temperature = [[5, null], [10, 15]]] ([sample_climate]) there are
    three cells, with indices (0, 0), (1, 0), (1, 1). *)
Theorem buildCells_present_positions
    (lats lons : list Q) (grid : list (list jsval)) :
  (length lats ≤ length grid)%nat → parsedGrid grid →
  (∃ cells,
     buildCells lats lons grid = Ok cells ∧
     ∀ a b,
       filter (λ c, i c = a ∧ j c = b) cells
       = match lats !! a, lons !! b, grid !! a ≫= (.!! b) with
         | Some lat, Some lon, Some (JNum (Num q)) =>
             [Cell (cellPolygon lon lat) (Num q) a b]
         | _, _, _ => []
         end)
  ∧ fmap (M := list) (λ c, (value c, i c, j c)) <$>
      cellsOf sample_climate temperature
    = Ok [ (Num 5, 0, 0); (Num 10, 1, 0); (Num 15, 1, 1) ]%nat.
Proof.
  intros Hrows Hgrid. split; [|reflexivity].
  exists (allCells lats lons grid). split.
  - rewrite buildCells_spec. by rewrite decide_True by lia.
  - intros a b. rewrite allCells_at. unfold cellAt.
    destruct (lats !! a) as [lat|]; [|done].
    destruct (lons !! b) as [lon|]; [|done]. cbn.
    destruct (grid !! a ≫= (.!! b)) as [[| |[q|]]|] eqn:E; try done.
    by destruct (parsedGrid_lookup grid a b _ Hgrid E).
Qed.

Lemma buildCells_present_positions_witness :
  (length [50; 51] ≤ length sample_grid)%nat ∧ parsedGrid sample_grid ∧
  ∃ cells,
    buildCells [50; 51] [10; 11] sample_grid = Ok cells ∧
    filter (λ c, i c = 0 ∧ j c = 1)%nat cells = [] ∧
    filter (λ c, i c = 1 ∧ j c = 1)%nat cells
    = [Cell (cellPolygon 11 51) (Num 15) 1 1].
Proof.
  assert (H : (length [50; 51] ≤ length sample_grid)%nat) by (cbn; lia).
  assert (Hp : parsedGrid sample_grid) by (repeat constructor; discriminate).
  split; [exact H|]. split; [exact Hp|].
  destruct (buildCells_present_positions [50; 51] [10; 11] sample_grid H Hp)
    as [(cells & Hc & Hat) _].
  exists cells. split; [exact Hc|]. split.
  - exact (Hat 0%nat 1%nat).
  - exact (Hat 1%nat 1%nat).
Defined.

Lemma HALF_value : HALF == 105 # 1000.
Proof. reflexivity. Qed.

Lemma cellPolygon_inSquare (lon lat : Q) (p : Q * Q) :
  p ∈ cellPolygon lon lat → inSquare lon lat p.
Proof.
  pose proof HALF_value as Hh. unfold cellPolygon, inSquare.
  rewrite !elem_of_cons, elem_of_nil.
  intros [-> | [-> | [-> | [-> | []]]]]; cbn [fst snd];
    split; apply Qabs_Qle_condition; lra.
Qed.

(** Two squares whose centres are a grid step apart on an axis share no
    point. *)
Lemma squares_apart (lon lat lon' lat' : Q) (p : Q * Q) :
  1 # 4 <= Qabs (lon' - lon) ∨ 1 # 4 <= Qabs (lat' - lat) →
  inSquare lon lat p → ¬ inSquare lon' lat' p.
Proof.
  pose proof HALF_value as Hh. unfold inSquare.
  intros Hfar [H1 H2] [H3 H4].
  apply Qabs_Qle_condition in H1, H2, H3, H4.
  destruct Hfar as [Hfar | Hfar].
  - destruct (Qlt_le_dec (lon' - lon) 0) as [Hs | Hs].
    + rewrite Qabs_neg in Hfar by lra. lra.
    + rewrite Qabs_pos in Hfar by lra. lra.
  - destruct (Qlt_le_dec (lat' - lat) 0) as [Hs | Hs].
    + rewrite Qabs_neg in Hfar by lra. lra.
    + rewrite Qabs_pos in Hfar by lra. lra.
Qed.

Lemma buildCells_Ok (lats lons : list Q) (grid : list (list jsval))
    (cells : list cell) :
  buildCells lats lons grid = Ok cells → cells = allCells lats lons grid.
Proof.
  rewrite buildCells_spec. case_decide; [|done]. congruence.
Qed.

(** C8: the polygon of every cell the loop emits is the axis-aligned
    square with corners at plus and minus [HALF] = 0.105 around its grid
    point ([lons[j]], [lats[i]]), so every vertex is within [HALF] of the
    grid point on each axis; [HALF] is less than half the nominal spacing
    of 0.25, so the squares of two cells whose grid points are a spacing
    apart on an axis share no point. *)
Theorem cell_polygon_square (lats lons : list Q) (grid : list (list jsval))
    (cells : list cell) (c : cell) :
  buildCells lats lons grid = Ok cells → c ∈ cells →
  ∃ lat lon,
    lats !! i c = Some lat ∧ lons !! j c = Some lon ∧
    polygon c
    = [ (lon - HALF, lat - HALF); (lon + HALF, lat - HALF);
        (lon + HALF, lat + HALF); (lon - HALF, lat + HALF) ] ∧
    (∀ p, p ∈ polygon c → inSquare lon lat p) ∧
    HALF == 105 # 1000 ∧ HALF < (1 # 4) / 2 ∧
    ∀ c' lat' lon',
      c' ∈ cells → lats !! i c' = Some lat' → lons !! j c' = Some lon' →
      1 # 4 <= Qabs (lon' - lon) ∨ 1 # 4 <= Qabs (lat' - lat) →
      ∀ p, inSquare lon lat p → ¬ inSquare lon' lat' p.
Proof.
  intros Hb Hc. apply buildCells_Ok in Hb as ->.
  apply elem_of_allCells in Hc as (a & b & Hc).
  apply cellAt_Some in Hc as (lat & lon & val & Hlat & Hlon & _ & ->).
  exists lat, lon. cbn [i j polygon].
  split; [exact Hlat|]. split; [exact Hlon|]. split; [reflexivity|].
  split; [apply cellPolygon_inSquare|].
  split; [reflexivity|]. split; [reflexivity|].
  intros c' lat' lon' _ _ _ Hfar p. by apply squares_apart.
Qed.

Lemma cell_polygon_square_witness :
  ∃ lat lon,
    [50; 51] !! 1%nat = Some lat ∧ [10; 11] !! 0%nat = Some lon ∧
    polygon (Cell (cellPolygon 10 51) (Num 10) 1 0)
    = [ (lon - HALF, lat - HALF); (lon + HALF, lat - HALF);
        (lon + HALF, lat + HALF); (lon - HALF, lat + HALF) ].
Proof.
  destruct (cell_polygon_square [50; 51] [10; 11] sample_grid
              [ Cell (cellPolygon 10 50) (Num 5) 0 0;
                Cell (cellPolygon 10 51) (Num 10) 1 0;
                Cell (cellPolygon 11 51) (Num 15) 1 1 ]
              (Cell (cellPolygon 10 51) (Num 10) 1 0))
    as (lat & lon & Hlat & Hlon & Hp & _).
  - reflexivity.
  - right; left.
  - exists lat, lon. split; [exact Hlat|]. split; [exact Hlon|]. exact Hp.
Defined.

(** ** The range of the present values *)

Lemma Qmin_cases (x y : Q) : Qmin x y = x ∨ Qmin x y = y.
Proof. unfold Qmin, GenericMinMax.gmin. destruct (x ?= y); auto. Qed.

Lemma Qmax_cases (x y : Q) : Qmax x y = x ∨ Qmax x y = y.
Proof. unfold Qmax, GenericMinMax.gmax. destruct (x ?= y); auto. Qed.

Lemma Math_min_of_spec (vals : list Q) (v : Q) :
  Math_min_of v vals ∈ v :: vals ∧
  ∀ x, x ∈ v :: vals → Math_min_of v vals <= x.
Proof.
  unfold Math_min_of. revert v.
  induction vals as [|w vals IH]; intros v; cbn [foldl].
  - split; [left|]. intros x ->%list_elem_of_singleton. lra.
  - destruct (IH (Qmin v w)) as [Hin Hle]. split.
    + apply elem_of_cons in Hin as [-> | Hin].
      * destruct (Qmin_cases v w) as [-> | ->]; [left | right; left].
      * by do 2 right.
    + intros x Hx.
      assert (H0 : foldl Qmin (Qmin v w) vals <= Qmin v w) by (apply Hle; left).
      apply elem_of_cons in Hx as [-> | [-> | Hx]%elem_of_cons].
      * eapply Qle_trans; [exact H0 | apply Q.le_min_l].
      * eapply Qle_trans; [exact H0 | apply Q.le_min_r].
      * apply Hle. by right.
Qed.

Lemma Math_max_of_spec (vals : list Q) (v : Q) :
  Math_max_of v vals ∈ v :: vals ∧
  ∀ x, x ∈ v :: vals → x <= Math_max_of v vals.
Proof.
  unfold Math_max_of. revert v.
  induction vals as [|w vals IH]; intros v; cbn [foldl].
  - split; [left|]. intros x ->%list_elem_of_singleton. lra.
  - destruct (IH (Qmax v w)) as [Hin Hle]. split.
    + apply elem_of_cons in Hin as [-> | Hin].
      * destruct (Qmax_cases v w) as [-> | ->]; [left | right; left].
      * by do 2 right.
    + intros x Hx.
      assert (H0 : Qmax v w <= foldl Qmax (Qmax v w) vals) by (apply Hle; left).
      apply elem_of_cons in Hx as [-> | [-> | Hx]%elem_of_cons].
      * eapply Qle_trans; [apply Q.le_max_l | exact H0].
      * eapply Qle_trans; [apply Q.le_max_r | exact H0].
      * apply Hle. by right.
Qed.

Lemma elem_of_presentValues (cities : list City.t) (m : metricDef) (v : Q) :
  v ∈ presentValues cities m ↔ ∃ d, d ∈ cities ∧ getValue m d = Some v.
Proof. unfold presentValues. apply list_elem_of_omap. Qed.

(** What the effect stores when some value is present. *)
Lemma bubbleRange_effect_updates (cities : list City.t) (m : metric)
    (current : Range.t) (v : Q) (vals : list Q) :
  presentValues cities (BUBBLE_METRICS m) = v :: vals →
  let r := bubbleRange_effect (Some cities) m current in
  Range.min r ∈ v :: vals ∧ Range.max r ∈ v :: vals ∧
  (∀ x, x ∈ v :: vals → Range.min r <= x <= Range.max r).
Proof.
  intros Hvals. unfold bubbleRange_effect. rewrite Hvals. cbn.
  destruct (Math_min_of_spec vals v) as [Hmin Hle].
  destruct (Math_max_of_spec vals v) as [Hmax Hge].
  split; [exact Hmin|]. split; [exact Hmax|].
  intros x Hx. split; [by apply Hle | by apply Hge].
Qed.

(** C5: when at least one record has a present value for the metric, the
    range the effect stores has [min <= max], both are values the accessor
    gave for records of the list, and every present value lies between
    them; records without a value do not take part. *)
Theorem bubbleRange_effect_present (cities : list City.t) (m : metric)
    (current : Range.t) :
  (∃ d v, d ∈ cities ∧ getValue (BUBBLE_METRICS m) d = Some v) →
  let r := bubbleRange_effect (Some cities) m current in
  Range.min r <= Range.max r ∧
  (∃ d, d ∈ cities ∧ getValue (BUBBLE_METRICS m) d = Some (Range.min r)) ∧
  (∃ d, d ∈ cities ∧ getValue (BUBBLE_METRICS m) d = Some (Range.max r)) ∧
  (∀ d v, d ∈ cities → getValue (BUBBLE_METRICS m) d = Some v →
          Range.min r <= v <= Range.max r).
Proof.
  intros (d0 & v0 & Hd0 & Hv0) r.
  assert (H0 : v0 ∈ presentValues cities (BUBBLE_METRICS m))
    by (apply elem_of_presentValues; eauto).
  destruct (presentValues cities (BUBBLE_METRICS m)) as [|v vals] eqn:Hvals;
    [by inversion H0|].
  destruct (bubbleRange_effect_updates cities m current v vals Hvals)
    as (Hmin & Hmax & Hbetween).
  fold r in Hmin, Hmax, Hbetween.
  rewrite <- Hvals in Hmin, Hmax, H0, Hbetween.
  split; [|split; [|split]].
  - destruct (Hbetween v0 H0). by eapply Qle_trans.
  - by apply elem_of_presentValues.
  - by apply elem_of_presentValues.
  - intros d w Hd Hw. apply Hbetween, elem_of_presentValues. eauto.
Qed.

Lemma bubbleRange_effect_present_witness :
  bubbleRange_effect (Some [oslo; rome; kyiv]) resilience_score (Range.Build 0 1)
    = Range.Build 40 55 ∧
  bubbleRange_effect (Some [oslo; rome; kyiv]) delta_precip_pct (Range.Build 0 1)
    = Range.Build 1 4 ∧
  40 <= 55.
Proof.
  split; [reflexivity|]. split; [reflexivity|].
  assert (H : ∃ d v, d ∈ [oslo; rome; kyiv] ∧
                     getValue (BUBBLE_METRICS resilience_score) d = Some v).
  { exists rome, 40. split; [right; left | reflexivity]. }
  exact (proj1 (bubbleRange_effect_present [oslo; rome; kyiv] resilience_score
                  (Range.Build 0 1) H)).
Defined.

Lemma bubbleRange_effect_cases (cities : option (list City.t)) (m : metric)
    (current : Range.t) :
  bubbleRange_effect cities m current = current
  ∨ (∃ cs d v, cities = Some cs ∧ d ∈ cs ∧
               getValue (BUBBLE_METRICS m) d = Some v) ∧
    Range.min (bubbleRange_effect cities m current)
    <= Range.max (bubbleRange_effect cities m current).
Proof.
  destruct cities as [cs|]; [|by left].
  destruct (presentValues cs (BUBBLE_METRICS m)) as [|v vals] eqn:Hvals.
  - left. unfold bubbleRange_effect. by rewrite Hvals.
  - right.
    assert (Hv : v ∈ presentValues cs (BUBBLE_METRICS m))
      by (rewrite Hvals; left).
    apply elem_of_presentValues in Hv as (d & Hd & Hv).
    split; [by exists cs, d, v|].
    destruct (bubbleRange_effect_updates cs m current v vals Hvals)
      as (_ & _ & Hbetween).
    destruct (Hbetween v) as [H1 H2]; [by left|]. by eapply Qle_trans.
Qed.

Lemma bubbleRange_effect_retains (cities : list City.t) (m : metric)
    (current : Range.t) :
  (∀ d, d ∈ cities → getValue (BUBBLE_METRICS m) d = None) →
  bubbleRange_effect (Some cities) m current = current.
Proof.
  intros Hnone. unfold bubbleRange_effect.
  destruct (presentValues cities (BUBBLE_METRICS m)) as [|v vals] eqn:Hvals;
    [done|].
  assert (Hv : v ∈ presentValues cities (BUBBLE_METRICS m))
    by (rewrite Hvals; left).
  apply elem_of_presentValues in Hv as (d & Hd & Hv).
  rewrite Hnone in Hv by done. done.
Qed.

Lemma bubbleRange_fold_ordered (runs : list (option (list City.t) * metric))
    (start : Range.t) :
  Range.min start <= Range.max start →
  let r := foldl (λ cur '(cities, m), bubbleRange_effect cities m cur) start runs in
  Range.min r <= Range.max r.
Proof.
  revert start. induction runs as [|[cities m] runs IH]; intros start Hs; [done|].
  cbn [foldl]. apply IH.
  destruct (bubbleRange_effect_cases cities m start) as [-> | [_ H]]; done.
Qed.

Lemma bubbleColor_total (value : jsval) (lo hi : Q) (inv : bool) :
  ∃ c, bubbleColor value lo hi inv = Ok c.
Proof.
  destruct value as [| |n]; [by eexists | by eexists |].
  destruct (bubbleColor_number n lo hi inv) as (c & Hc & _). by eexists.
Qed.

(** C10: the bubble range starts at [{min: 0, max: 1}] and, however often
    the effect runs and with whatever cities and metric, satisfies
    [min <= max]; the effect leaves the range as it is while the cities are
    not loaded and when no record has a present value for the metric, and
    changes it only when some record has one; with such a range every city's
    fill colour is computed without a division by zero. *)
Theorem bubbleRange_ordered (runs : list (option (list City.t) * metric)) :
  bubbleRange_initial = Range.Build 0 1 ∧
  Range.min (bubbleRange_after runs) <= Range.max (bubbleRange_after runs) ∧
  (∀ m current, bubbleRange_effect None m current = current) ∧
  (∀ cities m current,
     (∀ d, d ∈ cities → getValue (BUBBLE_METRICS m) d = None) →
     bubbleRange_effect (Some cities) m current = current) ∧
  (∀ cities m current,
     bubbleRange_effect cities m current ≠ current →
     ∃ cs d v, cities = Some cs ∧ d ∈ cs ∧
               getValue (BUBBLE_METRICS m) d = Some v) ∧
  (∀ m d, ∃ c, cityFillColor m (bubbleRange_after runs) d = Ok c).
Proof.
  split; [reflexivity|]. split.
  { apply bubbleRange_fold_ordered. cbn. lra. }
  split; [reflexivity|]. split; [apply bubbleRange_effect_retains|]. split.
  - intros cities m current Hne.
    destruct (bubbleRange_effect_cases cities m current) as [H | [H _]]; done.
  - intros m d. apply bubbleColor_total.
Qed.

Lemma bubbleRange_ordered_witness :
  bubbleRange_effect (Some [oslo; rome]) cost_of_living_index (Range.Build 40 40)
    = Range.Build 40 40 ∧
  bubbleRange_after
    [ (None, resilience_score); (Some [oslo; rome], resilience_score);
      (Some [oslo; rome], cost_of_living_index) ]
    = Range.Build 40 40 ∧
  cityFillColor resilience_score (Range.Build 40 40) rome
    = Ok (255, 200, 0, 220)%Z.
Proof.
  destruct (bubbleRange_ordered []) as (_ & _ & _ & Hkeep & _).
  split; [|split; reflexivity].
  apply Hkeep. intros d [-> | [-> | []%elem_of_nil]%elem_of_cons]%elem_of_cons;
    reflexivity.
Defined.

(** ** The month cache *)

Lemma pending_single (s : state) (key : string) :
  consistent s → key ∈ pending s → pending s = [key].
Proof.
  intros Hs Hin. pose proof (one_pending s Hs) as Hlen.
  destruct (pending s) as [|k [|k' rest]]; [by inversion Hin| |cbn in Hlen; lia].
  by apply list_elem_of_singleton in Hin as ->.
Qed.

Lemma settle_single (key : string) : settle key [key] = [].
Proof. cbn. by rewrite decide_True. Qed.

Lemma count_occ_single (k key : string) :
  count_occ String.string_dec [k] key = if decide (k = key) then 1%nat else 0%nat.
Proof.
  cbn. destruct (String.string_dec k key); [by rewrite decide_True|].
  by rewrite decide_False.
Qed.

Lemma mounted_eq :
  mounted = State 6 None true ∅ ["jul"%string] ["jul"%string] [].
Proof. reflexivity. Qed.

Lemma mounted_consistent : consistent mounted.
Proof.
  rewrite mounted_eq. split; cbn [loading pending cache].
  - done.
  - cbn. lia.
  - intros key _. apply lookup_empty.
  - intros key. unfold fetches, failures. cbn [fetched failed].
    rewrite lookup_empty, count_occ_single. cbn [count_occ]. lia.
Qed.

Lemma fetchMonth_consistent (idx : nat) (s : state) :
  consistent s → loading s = false → consistent (fetchMonth idx s).
Proof.
  intros Hs Hidle. pose proof (idle_no_pending s Hs Hidle) as Hp.
  pose proof (fetches_accounted s Hs) as Hacc.
  unfold fetchMonth. destruct (cache s !! keyOf idx) as [data|] eqn:Hc.
  - destruct Hs. split; cbn; try done.
  - split; cbn.
    + done.
    + rewrite Hp. cbn. lia.
    + rewrite Hp. intros key ->%list_elem_of_singleton. exact Hc.
    + intros key. specialize (Hacc key). unfold fetches, failures in *. cbn.
      rewrite Hp in *. cbn [app]. rewrite count_occ_app, Hacc, count_occ_single.
      cbn [count_occ]. lia.
Qed.

Lemma handleMonthChange_consistent (idx : nat) (s : state) :
  consistent s → loading s = false → consistent (handleMonthChange idx s).
Proof.
  intros Hs Hidle. unfold handleMonthChange.
  apply fetchMonth_consistent; [|done]. by destruct Hs.
Qed.

Lemma resolved_consistent (key : string) (data : Climate.t) (s : state) :
  consistent s → key ∈ pending s → consistent (resolved key data s).
Proof.
  intros Hs Hin. pose proof (pending_single s key Hs Hin) as Hp.
  pose proof (pending_not_cached s Hs key Hin) as Hc.
  pose proof (fetches_accounted s Hs) as Hacc.
  split; cbn; rewrite Hp, settle_single.
  - done.
  - cbn. lia.
  - intros k Hk. by inversion Hk.
  - intros k. specialize (Hacc k). unfold fetches, failures in *. cbn.
    rewrite Hp, count_occ_single in Hacc. rewrite Hacc. cbn [count_occ].
    destruct (decide (key = k)) as [-> | Hne].
    + rewrite lookup_insert_eq, Hc. lia.
    + rewrite lookup_insert_ne by done. lia.
Qed.

Lemma rejected_consistent (key : string) (s : state) :
  consistent s → key ∈ pending s → consistent (rejected key s).
Proof.
  intros Hs Hin. pose proof (pending_single s key Hs Hin) as Hp.
  pose proof (fetches_accounted s Hs) as Hacc.
  split; cbn; rewrite Hp, settle_single.
  - done.
  - cbn. lia.
  - intros k Hk. by inversion Hk.
  - intros k. specialize (Hacc k). unfold fetches, failures in *. cbn.
    rewrite Hp, count_occ_single in Hacc.
    rewrite count_occ_app, count_occ_single, Hacc. cbn [count_occ]. lia.
Qed.

Lemma step_consistent (s s' : state) (e : event) :
  consistent s → step s e = Some s' → consistent s'.
Proof.
  intros Hs. destruct e as [idx | key data | key]; cbn.
  - destruct (loading s) eqn:Hl; [done|]. intros [= <-].
    by apply handleMonthChange_consistent.
  - case_decide; [|done]. intros [= <-]. by apply resolved_consistent.
  - case_decide; [|done]. intros [= <-]. by apply rejected_consistent.
Qed.

Lemma run_consistent (evs : list event) (s s' : state) :
  consistent s → run s evs = Some s' → consistent s'.
Proof.
  revert s. induction evs as [|e evs IH]; intros s Hs; cbn.
  - by intros [= <-].
  - destruct (step s e) as [s1|] eqn:Hstep; [|done]. cbn.
    apply IH. by eapply step_consistent.
Qed.

(** A cached key stays cached, and no request is issued for it again. *)
Lemma step_cached (s s' : state) (e : event) (key : string) :
  consistent s → step s e = Some s' → is_Some (cache s !! key) →
  is_Some (cache s' !! key) ∧ fetches key s' = fetches key s.
Proof.
  intros Hs Hstep [d Hd]. destruct e as [idx | k data | k]; cbn in Hstep.
  - destruct (loading s); [done|]. injection Hstep as <-.
    unfold handleMonthChange, fetchMonth. cbn [cache].
    destruct (cache s !! keyOf idx) as [data|] eqn:Hc; cbn [cache].
    + by rewrite Hd.
    + rewrite Hd. split; [done|]. unfold fetches. cbn [fetched].
      rewrite count_occ_app, count_occ_single.
      rewrite decide_False; [lia|]. intros Heq. rewrite Heq in Hc. congruence.
  - case_decide as Hin; [|done]. injection Hstep as <-. cbn.
    split; [|done]. destruct (decide (k = key)) as [-> | Hne].
    + rewrite lookup_insert_eq. done.
    + rewrite lookup_insert_ne by done. by rewrite Hd.
  - case_decide as Hin; [|done]. injection Hstep as <-. cbn.
    by rewrite Hd.
Qed.

Lemma run_cached (evs : list event) (s s' : state) (key : string) :
  consistent s → run s evs = Some s' → is_Some (cache s !! key) →
  is_Some (cache s' !! key) ∧ fetches key s' = fetches key s.
Proof.
  revert s. induction evs as [|e evs IH]; intros s Hs; cbn.
  - by intros [= <-].
  - destruct (step s e) as [s1|] eqn:Hstep; [|done]. cbn.
    intros Hrun Hc.
    destruct (step_cached s s1 e key Hs Hstep Hc) as [Hc1 Hf1].
    destruct (IH s1 (step_consistent _ _ _ Hs Hstep) Hrun Hc1) as [Hc' Hf'].
    split; [done | congruence].
Qed.

(** C4 (as amended): a request for a cached key sets the displayed data
    from the cache and does nothing else: no request is issued, nothing is
    left in flight, [loading] is untouched.  From mount on, the requests
    issued for a key number at most one more than those that failed for
    it, so at most one when none failed; and once a key is cached no
    further request is issued for it. *)
Theorem fetchMonth_cached_or_once (evs : list event) (s : state) :
  run mounted evs = Some s →
  (∀ idx data,
     cache s !! keyOf idx = Some data →
     fetchMonth idx s
     = State (month s) (Some data) (loading s) (cache s)
         (pending s) (fetched s) (failed s)) ∧
  (∀ key, (fetches key s ≤ 1 + failures key s)%nat) ∧
  (∀ key, failures key s = 0%nat → (fetches key s ≤ 1)%nat) ∧
  (∀ key evs' s',
     is_Some (cache s !! key) → run s evs' = Some s' →
     is_Some (cache s' !! key) ∧ fetches key s' = fetches key s).
Proof.
  intros Hrun.
  pose proof (run_consistent evs mounted s mounted_consistent Hrun) as Hs.
  assert (Hbound : ∀ key, (fetches key s ≤ 1 + failures key s)%nat).
  { intros key. rewrite (fetches_accounted s Hs key).
    destruct (cache s !! key) eqn:Hc.
    - assert (count_occ String.string_dec (pending s) key = 0%nat); [|lia].
      apply count_occ_not_In. intros Hin%list_elem_of_In.
      rewrite (pending_not_cached s Hs key Hin) in Hc. done.
    - pose proof (one_pending s Hs) as Hlen.
      pose proof (count_occ_bound String.string_dec key (pending s)). lia. }
  split; [|split; [|split]].
  - intros idx data Hc. unfold fetchMonth. by rewrite Hc.
  - exact Hbound.
  - intros key Hf. specialize (Hbound key). lia.
  - intros key evs' s' Hc Hrun'. by eapply run_cached.
Qed.

Lemma fetchMonth_cached_or_once_witness :
  ∃ s,
    run mounted [Resolved "jul" sample_jul; Select 5; Rejected "jun"; Select 6]
    = Some s ∧
    climateData s = Some sample_jul ∧ loading s = false ∧
    fetched s = ["jul"; "jun"]%string ∧
    (fetches "jul" s ≤ 1)%nat.
Proof.
  eexists. split; [reflexivity|].
  split; [reflexivity|]. split; [reflexivity|]. split; [reflexivity|].
  refine (proj1 (proj2 (proj2
    (fetchMonth_cached_or_once
       [Resolved "jul" sample_jul; Select 5; Rejected "jun"; Select 6] _ eq_refl)))
    "jul"%string _).
  reflexivity.
Defined.

(** C4 (as stated) fails when a fetch fails: the rejected promise leaves
    the cache unwritten, so the next request for the month fetches it
    again, twice in all for [jul] here. *)
Lemma fetchMonth_twice_after_failure :
  ∃ s,
    run mounted [Rejected "jul"; Select 5; Resolved "jun" sample_jun; Select 6]
    = Some s ∧
    fetched s = ["jul"; "jun"; "jul"]%string ∧
    fetches "jul" s = 2%nat.
Proof. eexists. repeat split; reflexivity. Qed.

(** ** Rewriting [NaN] in the city payload *)

Lemma startsNaN_true (txt : string) :
  startsNaN txt = true ↔ ∃ rest, txt = ("NaN" +:+ rest)%string.
Proof.
  split.
  - destruct txt as [|c1 [|c2 [|c3 rest]]]; try done. cbn.
    intros [[H1 H2]%andb_prop H3]%andb_prop.
    apply Ascii.eqb_eq in H1, H2, H3. subst. by exists rest.
  - by intros [rest ->].
Qed.

Lemma replaceNaN_NaN (rest : string) :
  replaceNaN ("NaN" +:+ rest) = ("null" +:+ replaceNaN rest)%string.
Proof. reflexivity. Qed.

Lemma replaceNaN_other (c : ascii) (tl : string) :
  startsNaN (String c tl) = false →
  replaceNaN (String c tl) = String c (replaceNaN tl).
Proof.
  destruct tl as [|c2 [|c3 rest]]; [done | done |].
  intros H. cbn [startsNaN] in H. cbn [replaceNaN]. by rewrite H.
Qed.

(** How a first character of the output came about. *)
Lemma replaceNaN_head (txt out : string) (c : ascii) :
  replaceNaN txt = String c out →
  (startsNaN txt = false ∧ ∃ tl, txt = String c tl ∧ out = replaceNaN tl)
  ∨ (c = "n"%char ∧ ∃ rest, txt = ("NaN" +:+ rest)%string ∧
                             out = ("ull" +:+ replaceNaN rest)%string).
Proof.
  intros H. destruct (startsNaN txt) eqn:E.
  - right. apply startsNaN_true in E as [rest ->].
    rewrite replaceNaN_NaN in H. injection H as <- <-. eauto.
  - left. split; [done|]. destruct txt as [|c' tl]; [done|].
    rewrite replaceNaN_other in H by done. injection H as -> <-. eauto.
Qed.

Lemma replaceNaN_no_NaN_upto (n : nat) (pre txt post : string) :
  (String.length pre ≤ n)%nat →
  replaceNaN txt ≠ (pre +:+ "NaN" +:+ post)%string.
Proof.
  revert pre txt. induction n as [|n IH]; intros pre txt Hlen Heq.
  - destruct pre; [|cbn in Hlen; lia]. clear Hlen.
    apply replaceNaN_head in Heq as [(E & tl1 & -> & H1) | (? & _)]; [|done].
    symmetry in H1.
    apply replaceNaN_head in H1 as [(_ & tl2 & -> & H2) | (? & _)]; [|done].
    symmetry in H2.
    apply replaceNaN_head in H2 as [(_ & tl3 & -> & _) | (? & _)]; [|done].
    done.
  - destruct pre as [|c pre].
    { apply (IH EmptyString txt); [cbn; lia | done]. }
    cbn in Hlen.
    apply replaceNaN_head in Heq as [(_ & tl & -> & H) | (-> & rest & -> & H)].
    + symmetry in H. apply (IH pre tl); [lia | done].
    + destruct pre as [|p1 [|p2 [|p3 pre]]]; try done.
      cbn [String.append] in H. injection H as -> -> -> H. cbn in Hlen.
      symmetry in H. apply (IH pre rest); [lia | done].
Qed.

Lemma lastChar_cons (c : ascii) (tl : string) :
  tl ≠ EmptyString → lastChar (String c tl) = lastChar tl.
Proof. by destruct tl. Qed.

Lemma replaceNaN_token_upto (n : nat) (pre post : string) :
  (String.length pre ≤ n)%nat → lastChar pre ≠ Some "a"%char →
  replaceNaN (pre +:+ "NaN" +:+ post)
  = (replaceNaN pre +:+ "null" +:+ replaceNaN post)%string.
Proof.
  revert pre. induction n as [|n IH]; intros pre Hlen Hlast.
  - destruct pre; [done | cbn in Hlen; lia].
  - destruct pre as [|c pre]; [done|].
    destruct (startsNaN (String c pre)) eqn:E.
    + apply startsNaN_true in E as [rest E]. rewrite E in *. clear E.
      change (String.length ("NaN" +:+ rest))
        with (S (S (S (String.length rest)))) in Hlen.
      change (replaceNaN (("NaN" +:+ rest) +:+ "NaN" +:+ post))
        with ("null" +:+ replaceNaN (rest +:+ "NaN" +:+ post))%string.
      rewrite IH; [reflexivity | lia |].
      destruct rest; [done | exact Hlast].
    + rewrite (replaceNaN_other c pre E).
      change (String c pre +:+ "NaN" +:+ post)%string
        with (String c (pre +:+ "NaN" +:+ post)).
      rewrite replaceNaN_other.
      * rewrite IH; [reflexivity | cbn in Hlen; lia |].
        destruct pre; [done | exact Hlast].
      * destruct pre as [|c2 [|c3 pre]].
        -- change (startsNaN (String c (EmptyString +:+ "NaN" +:+ post)))
             with (Ascii.eqb c "N" && false && false)%bool.
           by rewrite Bool.andb_false_r.
        -- change (startsNaN (String c (String c2 EmptyString +:+ "NaN" +:+ post)))
             with (Ascii.eqb c "N" && Ascii.eqb c2 "a" && true)%bool.
           destruct (Ascii.eqb_spec c2 "a"); [by subst|].
           by rewrite Bool.andb_false_r.
        -- exact E.
Qed.

(** C9: the text handed to [JSON.parse] contains no [NaN] at all, and a
    [NaN] token standing where a value is expected, that is one not
    preceded by the letter a, is rewritten to [null] with the text before
    and after it rewritten on its own. *)
Theorem replaceNaN_rewrites_every_NaN :
  (∀ txt, ¬ occursIn "NaN" (replaceNaN txt)) ∧
  (∀ pre post,
     lastChar pre ≠ Some "a"%char →
     replaceNaN (pre +:+ "NaN" +:+ post)
     = (replaceNaN pre +:+ "null" +:+ replaceNaN post)%string).
Proof.
  split.
  - intros txt (pre & post & H).
    by apply (replaceNaN_no_NaN_upto (String.length pre) pre txt post).
  - intros pre post. by apply (replaceNaN_token_upto (String.length pre)).
Qed.

Lemma replaceNaN_rewrites_every_NaN_witness :
  replaceNaN ("[1.5, " +:+ "NaN" +:+ ", -2]") = "[1.5, null, -2]"%string.
Proof.
  rewrite (proj2 replaceNaN_rewrites_every_NaN "[1.5, " ", -2]")%string.
  - reflexivity.
  - discriminate.
Defined.

(** ** More on the stop table lookup *)

Lemma stopLoop_total (ratio : jsnum) (stops : list stop) (final : rgb) :
  (∀ a q, head stops = Some a → ratio = Num q → at_ a < q) →
  ∃ c, stopLoop ratio stops final = Ok c.
Proof.
  destruct ratio as [q|].
  - intros Hhead.
    destruct (stopLoop_sound stops q final) as [(k & a & b & _ & _ & _ & _ & H) | [H _]];
      eauto.
  - intros _. induction stops as [|a [|b rest] IH]; [by eexists | by eexists |].
    exact IH.
Qed.

Lemma multiStopColor_nonempty (ratio : jsnum) (stops : list stop) :
  stops ≠ [] → ∃ c, multiStopColor ratio stops = Ok c.
Proof.
  destruct stops as [|first rest]; [done|]. intros _.
  unfold multiStopColor.
  destruct (jle ratio (at_ first)) eqn:E1; [by eexists|].
  cbv zeta. destruct (jge ratio (at_ (List.last (first :: rest) first)));
    [by eexists|].
  apply stopLoop_total. intros a q [= <-] ->. cbn in E1.
  apply Qnot_le_lt. intros H. apply Qle_bool_iff in H. congruence.
Qed.

(** X1: a table with at least one stop always yields a colour, for every
    ratio, [NaN] included, and however its positions are ordered or
    repeated: the interpolation never divides by zero.  Only the empty
    table throws. *)
Theorem multiStopColor_never_fails (ratio : jsnum) (stops : list stop) :
  (stops ≠ [] → ∃ c, multiStopColor ratio stops = Ok c) ∧
  (stops = [] → multiStopColor ratio stops = TypeError).
Proof.
  split; [apply multiStopColor_nonempty | by intros ->].
Qed.

Lemma multiStopColor_never_fails_witness :
  ∃ c, multiStopColor (Num (1 # 2))
         [Stop (1 # 4) (0, 0, 0)%Z; Stop (1 # 4) (9, 9, 9)%Z; Stop 1 (5, 5, 5)%Z]
       = Ok c.
Proof.
  apply (proj1 (multiStopColor_never_fails (Num (1 # 2))
                  [Stop (1 # 4) (0, 0, 0)%Z; Stop (1 # 4) (9, 9, 9)%Z;
                   Stop 1 (5, 5, 5)%Z])).
  discriminate.
Defined.

Lemma lerp_within (lo hi : Z) (a b : rgb) (t : Q) :
  0 <= t <= 1 → channelsWithin lo hi a → channelsWithin lo hi b →
  channelsWithin lo hi (lerp a b t).
Proof.
  intros Ht. destruct a as [[a0 a1] a2], b as [[b0 b1] b2].
  unfold channelsWithin, lerp.
  intros (A0 & A1 & A2) (B0 & B1 & B2).
  pose proof (lerp_channel_between a0 b0 t Ht).
  pose proof (lerp_channel_between a1 b1 t Ht).
  pose proof (lerp_channel_between a2 b2 t Ht).
  lia.
Qed.

Lemma multiStopColor_within (lo hi : Z) (ratio : jsnum) (stops : list stop)
    (c : rgb) :
  Forall (λ s, channelsWithin lo hi (color s)) stops →
  multiStopColor ratio stops = Ok c → channelsWithin lo hi c.
Proof.
  intros Hall Hc. rewrite Forall_forall in Hall.
  destruct stops as [|first rest]; [done|].
  destruct ratio as [q|].
  - destruct (multiStopColor_cases (first :: rest) first q eq_refl)
      as [[_ H] | [(l & Hl & _ & _ & H) | (k & a & b & Ha & Hb & Hq1 & Hq2 & H)]];
      rewrite H in Hc; injection Hc as <-.
    + apply Hall. left.
    + apply Hall. apply list_elem_of_lookup. exists (pred (length (first :: rest))).
      by rewrite <- last_lookup.
    + apply lerp_within; [by apply weight_unit | |];
        apply Hall, list_elem_of_lookup; eauto.
  - rewrite (multiStopColor_NaN (first :: rest) first eq_refl) in Hc.
    assert (c = color (List.last (first :: rest) first)) as -> by congruence.
    apply Hall. apply list_elem_of_lookup. exists (pred (length (first :: rest))).
    rewrite <- last_lookup. by apply last_default.
Qed.

Lemma STOP_MAP_bytes (v : variable) :
  Forall (λ s, channelsWithin 0 255 (color s)) (STOP_MAP v).
Proof. destruct v; repeat constructor; cbn; lia. Qed.

Lemma GREEN_RED_bytes :
  Forall (λ s, channelsWithin 0 255 (color s)) GREEN_RED_STOPS.
Proof. repeat constructor; cbn; lia. Qed.

(** X2: both colour functions answer every input, whatever the value and
    the domain, with a colour whose three channels are integers from 0 to
    255 and whose alpha is the fixed 179 of the heatmap, 220 of the
    bubbles. *)
Theorem colors_are_bytes (v : variable) (value : jsnum) (bvalue : jsval)
    (lo hi : Q) (inv : bool) :
  (∃ c, getColor v value lo hi = Ok (withAlpha c 179) ∧ channelsWithin 0 255 c) ∧
  (∃ c, bubbleColor bvalue lo hi inv = Ok (withAlpha c 220) ∧ channelsWithin 0 255 c).
Proof.
  split.
  - destruct (clampedRatio_total value lo hi) as [ratio Hr].
    destruct (multiStopColor_nonempty ratio (STOP_MAP v)) as [c Hc].
    { by destruct v. }
    exists c. split; [by eapply getColor_eq|].
    eapply multiStopColor_within; [apply STOP_MAP_bytes | exact Hc].
  - destruct bvalue as [| |n].
    + exists (160, 160, 160)%Z. split; [reflexivity | cbn; lia].
    + exists (160, 160, 160)%Z. split; [reflexivity | cbn; lia].
    + destruct (clampedRatio_total n lo hi) as [ratio Hr].
      destruct (multiStopColor_nonempty
                  (if inv then jrsub 1 ratio else ratio) GREEN_RED_STOPS)
        as [c Hc]; [done|].
      exists c. split; [by eapply bubbleColor_eq|].
      eapply multiStopColor_within; [apply GREEN_RED_bytes | exact Hc].
Qed.

Lemma Math_round_comp (x y : Q) : x == y → Math_round x = Math_round y.
Proof. intros H. unfold Math_round. apply Qfloor_comp. lra. Qed.

Lemma weight_one (a b t : Q) : t == 1 → a + (b - a) * t == b.
Proof.
  intros Ht.
  assert (E : (b - a) * t == (b - a) * 1)
    by (apply Qmult_comp; [reflexivity | exact Ht]).
  lra.
Qed.

Lemma lerp_one (a b : rgb) (t : Q) : t == 1 → lerp a b t = b.
Proof.
  intros Ht. destruct a as [[a0 a1] a2], b as [[b0 b1] b2]. unfold lerp.
  assert (H : ∀ x y : Z,
            Math_round (inject_Z x + (inject_Z y - inject_Z x) * t) = y).
  { intros x y. rewrite <- (Math_round_inject y) at 2.
    by apply Math_round_comp, weight_one. }
  by rewrite !H.
Qed.

Lemma Qle_bool_false (x y : Q) : Qle_bool x y = false ↔ y < x.
Proof.
  split.
  - intros E. apply Qnot_le_lt. intros H. apply Qle_bool_iff in H. congruence.
  - intros H. destruct (Qle_bool x y) eqn:E; [|done].
    apply Qle_bool_iff in E. lra.
Qed.

Lemma increasing_cons (a : stop) (rest : list stop) :
  increasing (a :: rest) →
  increasing rest ∧ ∀ s, s ∈ rest → at_ a < at_ s.
Proof.
  intros H. apply StronglySorted_inv in H as [Hs Hall].
  split; [exact Hs|]. by apply Forall_forall.
Qed.

Lemma stopLoop_at_stop (rest : list stop) :
  ∀ (a : stop) (k : nat) (s : stop) (final : rgb),
    increasing (a :: rest) → rest !! k = Some s →
    stopLoop (Num (at_ s)) (a :: rest) final = Ok (color s).
Proof.
  induction rest as [|b rest IH]; intros a k s final Hinc Hk; [done|].
  apply increasing_cons in Hinc as [Hrest Ha].
  cbn [stopLoop]. destruct k as [|k].
  - injection Hk as ->.
    assert (Hlt : at_ a < at_ s) by (apply Ha; left).
    rewrite (proj2 (Qle_bool_iff _ _)) by lra.
    unfold qdiv. destruct (Qeq_bool (at_ s - at_ a) 0) eqn:E0.
    { apply Qeq_bool_eq in E0. lra. }
    cbn. f_equal. apply lerp_one. field. lra.
  - cbn in Hk.
    assert (Hlt : at_ b < at_ s).
    { apply increasing_cons in Hrest as [_ Hb]. apply Hb.
      apply list_elem_of_lookup. eauto. }
    rewrite (proj2 (Qle_bool_false _ _)) by exact Hlt.
    by apply (IH b k).
Qed.

Lemma increasing_lookup (stops : list stop) (k k' : nat) (s s' : stop) :
  increasing stops → stops !! k = Some s → stops !! k' = Some s' →
  (k < k')%nat → at_ s < at_ s'.
Proof.
  revert k k'. induction stops as [|a rest IH]; intros k k' Hinc Hk Hk' Hlt; [done|].
  apply increasing_cons in Hinc as [Hrest Ha].
  destruct k' as [|k']; [lia|]. cbn in Hk'.
  destruct k as [|k].
  - injection Hk as ->. apply Ha. apply list_elem_of_lookup. eauto.
  - cbn in Hk. apply (IH k k'); [done | done | done | lia].
Qed.

Lemma multiStopColor_at_position (stops : list stop) (k : nat) (s : stop) :
  increasing stops → stops !! k = Some s →
  multiStopColor (Num (at_ s)) stops = Ok (color s).
Proof.
  intros Hinc Hk. destruct stops as [|first rest]; [done|].
  destruct k as [|k].
  { injection Hk as ->. unfold multiStopColor, jle.
    by rewrite (proj2 (Qle_bool_iff _ _)) by lra. }
  cbn in Hk.
  assert (Hfirst : at_ first < at_ s).
  { apply increasing_cons in Hinc as [_ Ha]. apply Ha.
    apply list_elem_of_lookup. eauto. }
  unfold multiStopColor, jle, jge.
  rewrite (proj2 (Qle_bool_false _ _)) by exact Hfirst. cbv zeta.
  set (final := List.last (first :: rest) first).
  destruct (Qle_bool (at_ final) (at_ s)) eqn:E.
  - apply Qle_bool_iff in E.
    assert (Hfinal : (first :: rest) !! pred (length (first :: rest)) = Some final).
    { rewrite <- last_lookup. by apply last_default. }
    destruct (decide (S k = pred (length (first :: rest)))) as [Heq | Hne].
    + rewrite <- Heq in Hfinal.
      clearbody final.
      assert (Hs : Some s = Some final) by (rewrite <- Hk; exact Hfinal).
      by injection Hs as ->.
    + exfalso.
      assert (Hlen : (S k < length (first :: rest))%nat).
      { apply (lookup_lt_Some (first :: rest) (S k) s). exact Hk. }
      assert (at_ s < at_ final); [|lra].
      apply (increasing_lookup (first :: rest) (S k) (pred (length (first :: rest))));
        [done | done | done | lia].
  - by apply (stopLoop_at_stop rest first k).
Qed.

Lemma STOP_MAP_increasing (v : variable) : increasing (STOP_MAP v).
Proof. destruct v; repeat constructor. Qed.

Lemma GREEN_RED_increasing : increasing GREEN_RED_STOPS.
Proof. repeat constructor. Qed.

(** X3: a table whose positions increase strictly is met exactly at its
    stops: at the position of a stop the lookup returns that stop's colour
    unrounded, whichever branch answers.  The three heatmap tables and the
    bubble table are such tables. *)
Theorem multiStopColor_at_stop (stops : list stop) (k : nat) (s : stop) :
  (increasing stops → stops !! k = Some s →
   multiStopColor (Num (at_ s)) stops = Ok (color s)) ∧
  (∀ v, increasing (STOP_MAP v)) ∧ increasing GREEN_RED_STOPS.
Proof.
  split; [apply multiStopColor_at_position|].
  split; [apply STOP_MAP_increasing | apply GREEN_RED_increasing].
Qed.

Lemma multiStopColor_at_stop_witness :
  multiStopColor (Num (3 # 5)) SUN_STOPS = Ok (254, 227, 145)%Z.
Proof.
  apply (proj1 (multiStopColor_at_stop SUN_STOPS 3
                  (Stop (3 # 5) (254, 227, 145)%Z))).
  - repeat constructor.
  - reflexivity.
Defined.

(** X4: a [NaN] value fails every comparison of the lookup: on a domain
    that is not degenerate the heatmap colours it with the last stop of the
    variable's table, and the bubbles colour it red, the last stop, with the
    inversion flag as without it. *)
Theorem NaN_value_last_stop (v : variable) (lo hi : Q) (inv : bool) :
  ¬ lo == hi →
  (∃ s, lastStop (STOP_MAP v) = Some s ∧
        getColor v NaN lo hi = Ok (withAlpha (color s) 179)) ∧
  bubbleColor (JNum NaN) lo hi inv = Ok (200, 30, 30, 220)%Z.
Proof.
  intros Hne. pose proof (clampedRatio_NaN lo hi Hne) as Hr. split.
  - destruct v; eexists; (split; [reflexivity|]);
      (eapply getColor_eq; [exact Hr | reflexivity]).
  - change (200, 30, 30, 220)%Z with (withAlpha (200, 30, 30)%Z 220).
    eapply bubbleColor_eq; [exact Hr|]. by destruct inv.
Qed.

Lemma NaN_value_last_stop_witness :
  getColor temperature NaN (-15) 35 = Ok (178, 24, 43, 179)%Z ∧
  bubbleColor (JNum NaN) 0 100 true = Ok (200, 30, 30, 220)%Z.
Proof.
  assert (H : ¬ -15 == 35) by discriminate.
  assert (H' : ¬ 0 == 100) by discriminate.
  split.
  - destruct (NaN_value_last_stop temperature (-15) 35 false H)
      as [(s & Hs & Hc) _].
    injection Hs as <-. exact Hc.
  - exact (proj2 (NaN_value_last_stop temperature 0 100 true H')).
Defined.

(** ** The bubble legend against the bubbles *)

Lemma legendStops_inverted :
  legendStops true
  = [ Stop (0 # 2) (200, 30, 30)%Z;
      Stop (1 # 2) (255, 200, 0)%Z;
      Stop (2 # 2) (34, 139, 34)%Z ].
Proof. reflexivity. Qed.

Lemma lerp_Qeq (a b : rgb) (t t' : Q) : t == t' → lerp a b t = lerp a b t'.
Proof.
  intros H. destruct a as [[a0 a1] a2], b as [[b0 b1] b2]. unfold lerp.
  f_equal; [f_equal|]; apply Math_round_comp;
    (apply Qplus_comp; [reflexivity|]; apply Qmult_comp; [reflexivity | exact H]).
Qed.

Lemma stopLoop_Qeq (q q' : Q) (stops : list stop) (final : rgb) :
  q == q' → stopLoop (Num q) stops final = stopLoop (Num q') stops final.
Proof.
  intros H. induction stops as [|a rest IH]; [done|].
  destruct rest as [|b rest]; [done|]. cbn [stopLoop].
  rewrite (Qleb_comp q q' H (at_ b) (at_ b) (Qeq_refl _)).
  destruct (Qle_bool q' (at_ b)); [|exact IH].
  unfold qdiv. destruct (Qeq_bool (at_ b - at_ a) 0); [done|].
  cbn. f_equal. apply lerp_Qeq. unfold Qdiv.
  apply Qmult_comp; [lra | reflexivity].
Qed.

(** The lookup depends on the ratio's value only, not on the fraction that
    denotes it. *)
Lemma multiStopColor_Qeq (q q' : Q) (stops : list stop) :
  q == q' → multiStopColor (Num q) stops = multiStopColor (Num q') stops.
Proof.
  intros H. destruct stops as [|first rest]; [done|].
  unfold multiStopColor, jle, jge. cbv zeta.
  rewrite (Qleb_comp q q' H (at_ first) (at_ first) (Qeq_refl _)).
  set (final := List.last (first :: rest) first).
  rewrite (Qleb_comp (at_ final) (at_ final) (Qeq_refl _) q q' H).
  by rewrite (stopLoop_Qeq q q' _ _ H).
Qed.

(** X5: the legend and the bubbles agree at the legend's stops.  The table
    the legend's gradient is drawn from, for an inverted metric the
    reversed table at equal distances, increases from position 0 to
    position 1; and for either direction of the metric a number whose
    clamped ratio is the position of one of its stops is drawn in exactly
    that stop's colour: no interpolation weight other than 0 or 1 is
    involved. *)
Theorem legend_stops_match_bubbles (value lo hi ratio : Q) (inv : bool)
    (k : nat) (s : stop) :
  increasing (legendStops inv) ∧
  (∃ f l, firstStop (legendStops inv) = Some f ∧
          lastStop (legendStops inv) = Some l ∧ at_ f == 0 ∧ at_ l == 1) ∧
  (legendStops inv !! k = Some s →
   clampedRatio (Num value) lo hi = Ok (Num ratio) → ratio == at_ s →
   bubbleColor (JNum (Num value)) lo hi inv = Ok (withAlpha (color s) 220)).
Proof.
  split; [destruct inv; repeat constructor|].
  split; [destruct inv; do 2 eexists; repeat split; reflexivity|].
  intros Hk Hr Hq. eapply bubbleColor_eq; [exact Hr|]. destruct inv.
  - rewrite legendStops_inverted in Hk. cbn [jrsub].
    destruct k as [|[|[|k]]]; [| | |done]; injection Hk as <-;
      cbn [at_ color] in *.
    + rewrite (multiStopColor_Qeq (1 - ratio) 1) by lra. reflexivity.
    + rewrite (multiStopColor_Qeq (1 - ratio) (1 # 2)) by lra. reflexivity.
    + rewrite (multiStopColor_Qeq (1 - ratio) 0) by lra. reflexivity.
  - rewrite (multiStopColor_Qeq ratio (at_ s)) by exact Hq.
    exact (multiStopColor_at_position GREEN_RED_STOPS k s GREEN_RED_increasing Hk).
Qed.

Lemma legend_stops_match_bubbles_witness :
  legendStops true !! 0%nat = Some (Stop (0 # 2) (200, 30, 30)%Z) ∧
  clampedRatio (Num 20) 20 80 = Ok (Num 0) ∧
  bubbleColor (JNum (Num 20)) 20 80 true = Ok (200, 30, 30, 220)%Z.
Proof.
  assert (Hk : legendStops true !! 0%nat = Some (Stop (0 # 2) (200, 30, 30)%Z))
    by reflexivity.
  assert (Hr : clampedRatio (Num 20) 20 80 = Ok (Num 0)) by reflexivity.
  split; [exact Hk|]. split; [exact Hr|].
  destruct (legend_stops_match_bubbles 20 20 80 0 true 0
              (Stop (0 # 2) (200, 30, 30)%Z)) as (_ & _ & H).
  apply H; [exact Hk | exact Hr | reflexivity].
Defined.

(** ** More on the cells *)

(** X6: the cell loop throws exactly when there is a longitude and the
    grid has fewer rows than there are latitudes; otherwise it ends with
    the cells of all positions, row by row.  A row that is too short throws
    nothing: its missing columns are skipped. *)
Theorem buildCells_throws_iff (lats lons : list Q) (grid : list (list jsval)) :
  (buildCells lats lons grid = TypeError
   ↔ lons ≠ [] ∧ (length grid < length lats)%nat) ∧
  (¬ (lons ≠ [] ∧ (length grid < length lats)%nat) →
   buildCells lats lons grid = Ok (allCells lats lons grid)).
Proof.
  rewrite buildCells_spec.
  destruct (decide (length lons = 0 ∨ length lats = 0 ∨ length lats ≤ length grid)%nat)
    as [Hd | Hd].
  - split; [|done]. split; [done|]. intros [Hlons Hlt]. exfalso.
    destruct lons; [done|]. cbn in Hd. lia.
  - split.
    + split; [|done]. intros _. split; [|lia].
      intros ->. apply Hd. by left.
    + intros Hn. exfalso. apply Hn. split; [|lia].
      intros ->. apply Hd. by left.
Qed.

Lemma buildCells_throws_iff_witness :
  buildCells [50; 51] [10] [ [JNum (Num 1)] ] = TypeError ∧
  buildCells [50; 51] [10; 11] [ [JNum (Num 1)]; [] ]
  = Ok [Cell (cellPolygon 10 50) (Num 1) 0 0].
Proof.
  split.
  - apply (proj1 (buildCells_throws_iff [50; 51] [10] [ [JNum (Num 1)] ])).
    split; [discriminate | cbn; lia].
  - apply (proj2 (buildCells_throws_iff [50; 51] [10; 11] [ [JNum (Num 1)]; [] ])).
    intros [_ H]. cbn in H. lia.
Defined.

Lemma cellAt_inj (lats lons : list Q) (grid : list (list jsval))
    (a b a' b' : nat) (c : cell) :
  cellAt lats lons grid a b = Some c → cellAt lats lons grid a' b' = Some c →
  a = a' ∧ b = b'.
Proof.
  intros (? & ? & ? & _ & _ & _ & ->)%cellAt_Some
         (? & ? & ? & _ & _ & _ & [= _ _ -> ->])%cellAt_Some.
  done.
Qed.

Lemma NoDup_option_list {A} (o : option A) : NoDup (option_list o).
Proof. destruct o; [apply NoDup_singleton | apply NoDup_nil_2]. Qed.

Lemma NoDup_allCells (lats lons : list Q) (grid : list (list jsval)) :
  NoDup (allCells lats lons grid).
Proof.
  unfold allCells. apply NoDup_bind; [| |apply NoDup_seq].
  - intros a a' c _ _ (b & Hc)%elem_of_rowCells (b' & Hc')%elem_of_rowCells.
    by destruct (cellAt_inj _ _ _ _ _ _ _ _ Hc Hc').
  - intros a _. unfold rowCells. apply NoDup_bind; [| |apply NoDup_seq].
    + intros b b' c _ _ Hc Hc'.
      destruct (cellAt lats lons grid a b) as [c1|] eqn:E; [|by inversion Hc].
      destruct (cellAt lats lons grid a b') as [c2|] eqn:E'; [|by inversion Hc'].
      apply list_elem_of_singleton in Hc as ->.
      apply list_elem_of_singleton in Hc' as ->.
      by destruct (cellAt_inj _ _ _ _ _ _ _ _ E E').
    + intros b _. apply NoDup_option_list.
Qed.

Lemma length_rowCells (lats lons : list Q) (grid : list (list jsval)) (a : nat) :
  (length (rowCells lats lons grid a) ≤ length lons)%nat.
Proof.
  unfold rowCells.
  assert (H : ∀ l : list nat,
            (length (b ← l; option_list (cellAt lats lons grid a b)) ≤ length l)%nat).
  { induction l as [|b l IH]; [done|].
    rewrite bind_cons, length_app. cbn [length].
    destruct (cellAt lats lons grid a b); cbn; lia. }
  specialize (H (seq 0 (length lons))). by rewrite length_seq in H.
Qed.

Lemma length_allCells (lats lons : list Q) (grid : list (list jsval)) :
  (length (allCells lats lons grid) ≤ length lats * length lons)%nat.
Proof.
  unfold allCells.
  assert (H : ∀ l : list nat,
            (length (a ← l; rowCells lats lons grid a)
             ≤ length l * length lons)%nat).
  { induction l as [|a l IH]; [done|].
    rewrite bind_cons, length_app. cbn [length].
    pose proof (length_rowCells lats lons grid a). lia. }
  specialize (H (seq 0 (length lats))). by rewrite length_seq in H.
Qed.

(** X7: the loop emits at most one cell for each pair of a latitude and a
    longitude: no more cells than [lats.length * lons.length], every cell
    with indices inside the two arrays, and no two cells with the same
    pair of indices. *)
Theorem buildCells_count (lats lons : list Q) (grid : list (list jsval))
    (cells : list cell) :
  buildCells lats lons grid = Ok cells →
  (length cells ≤ length lats * length lons)%nat ∧
  (∀ c, c ∈ cells → (i c < length lats)%nat ∧ (j c < length lons)%nat) ∧
  NoDup ((λ c, (i c, j c)) <$> cells).
Proof.
  intros ->%buildCells_Ok. split; [apply length_allCells|]. split.
  - intros c (a & b & Hc)%elem_of_allCells.
    apply cellAt_Some in Hc as (lat & lon & val & Hlat & Hlon & _ & ->).
    cbn. split; eapply lookup_lt_Some; eauto.
  - apply NoDup_fmap_2_strong; [|apply NoDup_allCells].
    intros c c' (a & b & Hc)%elem_of_allCells (a' & b' & Hc')%elem_of_allCells Heq.
    pose proof Hc as (? & ? & ? & _ & _ & _ & Ec)%cellAt_Some.
    pose proof Hc' as (? & ? & ? & _ & _ & _ & Ec')%cellAt_Some.
    rewrite Ec, Ec' in Heq. cbn in Heq. injection Heq as -> ->.
    congruence.
Qed.

Lemma buildCells_count_witness :
  (length [ Cell (cellPolygon 10 50) (Num 5) 0 0;
            Cell (cellPolygon 10 51) (Num 10) 1 0;
            Cell (cellPolygon 11 51) (Num 15) 1 1 ]
   ≤ length [50; 51] * length [10; 11])%nat.
Proof.
  apply (buildCells_count [50; 51] [10; 11] sample_grid). reflexivity.
Defined.

Lemma gridRead_lookup (grid : list (list jsval)) (a b : nat) (val : jsval) :
  grid !! a ≫= (.!! b) = Some val → gridRead grid a b = Ok val.
Proof.
  unfold gridRead. destruct (grid !! a) as [row|]; [|done]. cbn.
  by intros ->.
Qed.

Lemma gridRead_rows (grid : list (list jsval)) (a b : nat) :
  (a < length grid)%nat → ∃ val, gridRead grid a b = Ok val.
Proof.
  intros Ha. unfold gridRead.
  destruct (lookup_lt_is_Some_2 grid a Ha) as [row ->]. by eexists.
Qed.

(** X8: hovering a cell of the heatmap finds the cell again.  When each of
    the three grids has a row for every latitude, the handler ends without
    an exception for every cell the loop emitted; the record it stores
    holds, for the variable the cells were built from, the very value of the
    cell, and as coordinates the grid point that is the centre of the
    cell's square. *)
Theorem heatmap_onHover_cell (climateData : Climate.t) (v : variable)
    (cells : list cell) (d : cell) (x y : Q) :
  (∀ v', length (Climate.lats climateData) ≤ length (gridOf climateData v'))%nat →
  cellsOf climateData v = Ok cells → d ∈ cells →
  ∃ h lat lon,
    heatmap_onHover climateData (Some d) x y = Ok (Some h) ∧
    hover_x h = x ∧ hover_y h = y ∧
    hoverValue h v = JNum (value d) ∧
    hover_lat h = JNum (Num lat) ∧ hover_lon h = JNum (Num lon) ∧
    polygon d = cellPolygon lon lat.
Proof.
  intros Hrows Hcells Hd. unfold cellsOf in Hcells.
  apply buildCells_Ok in Hcells as ->.
  apply elem_of_allCells in Hd as (a & b & Hd).
  apply cellAt_Some in Hd as (lat & lon & val & Hlat & Hlon & Hval & ->).
  apply gridRead_lookup in Hval.
  pose proof (lookup_lt_Some _ _ _ Hlat) as Ha.
  destruct (gridRead_rows (Climate.temperature climateData) a b) as [t Ht].
  { specialize (Hrows temperature). cbn in Hrows. lia. }
  destruct (gridRead_rows (Climate.precipitation climateData) a b) as [p Hp].
  { specialize (Hrows precipitation). cbn in Hrows. lia. }
  destruct (gridRead_rows (Climate.sunshine climateData) a b) as [s Hs].
  { specialize (Hrows sunshine). cbn in Hrows. lia. }
  exists (GridHover x y t p s (JNum (Num lat)) (JNum (Num lon))), lat, lon.
  split.
  - unfold heatmap_onHover, arrayRead. cbn [i j].
    by rewrite Ht, Hp, Hs, Hlat, Hlon.
  - repeat split.
    destruct v; cbn [hoverValue temp precip sun gridOf value] in *; congruence.
Qed.

Lemma heatmap_onHover_cell_witness :
  ∃ h lat lon,
    heatmap_onHover sample_climate
      (Some (Cell (cellPolygon 11 51) (Num 15) 1 1)) 300 200 = Ok (Some h) ∧
    hover_x h = 300 ∧ hover_y h = 200 ∧
    hoverValue h temperature = JNum (Num 15) ∧
    hover_lat h = JNum (Num lat) ∧ hover_lon h = JNum (Num lon) ∧
    polygon (Cell (cellPolygon 11 51) (Num 15) 1 1) = cellPolygon lon lat.
Proof.
  apply (heatmap_onHover_cell sample_climate temperature
           [ Cell (cellPolygon 10 50) (Num 5) 0 0;
             Cell (cellPolygon 10 51) (Num 10) 1 0;
             Cell (cellPolygon 11 51) (Num 15) 1 1 ]).
  - intros []; cbn; lia.
  - reflexivity.
  - do 2 right. left.
Defined.

(** ** More on the month cache *)

Lemma run_invariant (P : state → Prop) :
  (∀ s e s', consistent s → P s → step s e = Some s' → P s') →
  ∀ evs s s', consistent s → P s → run s evs = Some s' → P s'.
Proof.
  intros Hstep evs. induction evs as [|e evs IH]; intros s s' Hs HP; cbn.
  - by intros [= <-].
  - destruct (step s e) as [s1|] eqn:E; [|done]. cbn.
    apply IH; [by eapply step_consistent | by eapply Hstep].
Qed.

Lemma step_tracking (s s' : state) (e : event) :
  consistent s → tracking s → step s e = Some s' → tracking s'.
Proof.
  intros Hs [Hl Hm]. destruct e as [idx | key data | key]; cbn.
  - destruct (loading s) eqn:Hidle; [done|]. intros [= <-].
    pose proof (idle_no_pending s Hs Hidle) as Hp.
    unfold handleMonthChange, fetchMonth. cbn [cache].
    destruct (cache s !! keyOf idx); split; cbn [loading pending month].
    + by rewrite Hidle.
    + rewrite Hp. intros k Hk. by inversion Hk.
    + rewrite Hp. done.
    + rewrite Hp. by intros k ->%list_elem_of_singleton.
  - case_decide as Hin; [|done]. intros [= <-].
    pose proof (pending_single s key Hs Hin) as Hp.
    split; cbn [resolved loading pending month].
    + done.
    + rewrite Hp, settle_single. intros k Hk. by inversion Hk.
  - case_decide as Hin; [|done]. intros [= <-].
    pose proof (pending_single s key Hs Hin) as Hp.
    split; cbn [rejected loading pending month].
    + done.
    + rewrite Hp, settle_single. intros k Hk. by inversion Hk.
Qed.

Lemma mounted_tracking : tracking mounted.
Proof.
  rewrite mounted_eq. split; cbn.
  - done.
  - by intros key ->%list_elem_of_singleton.
Qed.

(** X9: from mount on, the spinner shows exactly while a fetch is in
    flight; at most one fetch is in flight at a time, and it is the fetch of
    the month the slider shows. *)
Theorem loading_iff_fetch_in_flight (evs : list event) (s : state) :
  run mounted evs = Some s →
  (loading s = true ↔ pending s ≠ []) ∧
  (length (pending s) ≤ 1)%nat ∧
  (∀ key, key ∈ pending s → key = keyOf (month s)).
Proof.
  intros Hrun.
  pose proof (run_consistent evs mounted s mounted_consistent Hrun) as Hs.
  pose proof (run_invariant tracking
                (λ t e t', step_tracking t t' e) evs mounted s
                mounted_consistent mounted_tracking Hrun) as [Hl Hm].
  split; [|split; [by destruct Hs | exact Hm]].
  split; [exact Hl|]. intros Hp.
  destruct (loading s) eqn:E; [done|].
  by destruct Hp, (idle_no_pending s Hs E).
Qed.

Lemma loading_iff_fetch_in_flight_witness :
  ∃ s,
    run mounted [Resolved "jul" sample_jul; Select 5] = Some s ∧
    loading s = true ∧ pending s = ["jun"]%string ∧ month s = 5%nat.
Proof.
  eexists. split; [reflexivity|].
  pose proof (loading_iff_fetch_in_flight
                [Resolved "jul" sample_jul; Select 5] _ eq_refl) as (Hl & _ & _).
  split; [|split; reflexivity].
  apply Hl. discriminate.
Defined.

Lemma step_cache_kept (s s' : state) (e : event) (key : string) (d : Climate.t) :
  consistent s → step s e = Some s' → cache s !! key = Some d →
  cache s' !! key = Some d.
Proof.
  intros Hs Hstep Hd. destruct e as [idx | k data | k]; cbn in Hstep.
  - destruct (loading s); [done|]. injection Hstep as <-.
    unfold handleMonthChange, fetchMonth. cbn [cache].
    by destruct (cache s !! keyOf idx).
  - case_decide as Hin; [|done]. injection Hstep as <-. cbn.
    rewrite lookup_insert_ne; [done|]. intros ->.
    rewrite (pending_not_cached s Hs key Hin) in Hd. done.
  - case_decide as Hin; [|done]. by injection Hstep as <-.
Qed.

(** X10: the cache only grows.  From mount on, a dataset once cached for a
    key stays cached for it, the same dataset, whatever happens later: no
    entry is overwritten or removed. *)
Theorem cache_entry_kept (evs evs' : list event) (s s' : state)
    (key : string) (d : Climate.t) :
  run mounted evs = Some s → run s evs' = Some s' →
  cache s !! key = Some d → cache s' !! key = Some d.
Proof.
  intros Hrun Hrun' Hd.
  pose proof (run_consistent evs mounted s mounted_consistent Hrun) as Hs.
  apply (run_invariant (λ t, cache t !! key = Some d)) with evs' s; try done.
  intros t e t' Ht Hc Hstep. by eapply step_cache_kept.
Qed.

Lemma cache_entry_kept_witness :
  ∃ s',
    run mounted [Resolved "jul" sample_jul; Select 5; Resolved "jun" sample_jun;
                 Select 6; Select 5]
    = Some s' ∧
    cache s' !! "jul"%string = Some sample_jul.
Proof.
  eexists. split; [reflexivity|].
  eapply (cache_entry_kept [Resolved "jul" sample_jul]
            [Select 5; Resolved "jun" sample_jun; Select 6; Select 5]);
    reflexivity.
Defined.

Lemma step_showsSelected (s s' : state) (e : event) :
  consistent s → tracking s → showsSelected s → step s e = Some s' →
  showsSelected s'.
Proof.
  intros Hs Ht Hsel. destruct e as [idx | key data | key]; cbn.
  - destruct (loading s) eqn:Hidle; [done|]. intros [= <-].
    unfold handleMonthChange, fetchMonth, showsSelected. cbn [cache].
    destruct (cache s !! keyOf idx) as [data|] eqn:Hc;
      cbn [failed loading climateData cache month]; [|done].
    intros _ _. by rewrite Hc.
  - case_decide as Hin; [|done]. intros [= <-].
    unfold showsSelected. cbn [resolved failed loading climateData cache month].
    intros _ _. rewrite <- (pending_month s Ht key Hin).
    by rewrite lookup_insert_eq.
  - case_decide as Hin; [|done]. intros [= <-].
    unfold showsSelected. cbn [rejected failed].
    intros Hf. by destruct (failed s).
Qed.

(** X11: while no fetch has failed, the map and the slider agree: whenever
    the page is idle, a dataset is displayed and it is the cached dataset
    of the month the slider shows. *)
Theorem idle_shows_selected_month (evs : list event) (s : state) :
  run mounted evs = Some s → failed s = [] → loading s = false →
  is_Some (climateData s) ∧ climateData s = cache s !! keyOf (month s).
Proof.
  intros Hrun.
  assert (H : tracking s ∧ showsSelected s); [|by destruct H].
  apply (run_invariant (λ t, tracking t ∧ showsSelected t)) with evs mounted.
  - intros t e t' Ht [Htr Hsel] Hstep.
    split; [by eapply step_tracking | by eapply step_showsSelected].
  - apply mounted_consistent.
  - split; [apply mounted_tracking|]. rewrite mounted_eq. by intros _ [=].
  - exact Hrun.
Qed.

Lemma idle_shows_selected_month_witness :
  ∃ s,
    run mounted [Resolved "jul" sample_jul; Select 5; Resolved "jun" sample_jun;
                 Select 6]
    = Some s ∧
    month s = 6%nat ∧ climateData s = Some sample_jul.
Proof.
  eexists. split; [reflexivity|]. split; [reflexivity|].
  destruct (idle_shows_selected_month
              [Resolved "jul" sample_jul; Select 5; Resolved "jun" sample_jun;
               Select 6] _ eq_refl eq_refl eq_refl) as [_ H].
  rewrite H. reflexivity.
Defined.

Lemma step_cache_origin (s s' : state) (e : event) (key : string) (d : Climate.t) :
  step s e = Some s' → cache s' !! key = Some d →
  cache s !! key = Some d ∨ e = Resolved key d.
Proof.
  destruct e as [idx | k data | k]; cbn.
  - destruct (loading s); [done|]. intros [= <-].
    unfold handleMonthChange, fetchMonth. cbn [cache].
    destruct (cache s !! keyOf idx); cbn [cache]; auto.
  - case_decide; [|done]. intros [= <-]. cbn [resolved cache].
    destruct (decide (k = key)) as [-> | Hne].
    + rewrite lookup_insert_eq. intros [= ->]. by right.
    + rewrite lookup_insert_ne by done. auto.
  - case_decide; [|done]. intros [= <-]. cbn [rejected cache]. auto.
Qed.

Lemma step_display_origin (s s' : state) (e : event) (d : Climate.t) :
  step s e = Some s' → climateData s' = Some d →
  climateData s = Some d ∨ (∃ key, cache s !! key = Some d)
  ∨ ∃ key, e = Resolved key d.
Proof.
  destruct e as [idx | k data | k]; cbn.
  - destruct (loading s); [done|]. intros [= <-].
    unfold handleMonthChange, fetchMonth. cbn [cache].
    destruct (cache s !! keyOf idx) as [data|] eqn:Hc; cbn [climateData]; [|auto].
    intros [= ->]. right; left. eauto.
  - case_decide; [|done]. intros [= <-]. cbn [resolved climateData].
    intros [= ->]. right; right. eauto.
  - case_decide; [|done]. intros [= <-]. cbn [rejected climateData]. auto.
Qed.

Lemma run_cache_origin (evs : list event) (s s' : state)
    (key : string) (d : Climate.t) :
  run s evs = Some s' → cache s' !! key = Some d →
  cache s !! key = Some d ∨ Resolved key d ∈ evs.
Proof.
  revert s. induction evs as [|e evs IH]; intros s; cbn.
  - intros [= <-]. auto.
  - destruct (step s e) as [s1|] eqn:E; [|done]. cbn. intros Hrun Hd.
    destruct (IH s1 Hrun Hd) as [H1 | H1]; [|right; by right].
    destruct (step_cache_origin s s1 e key d E H1) as [H0 | ->]; [by left|].
    right. left.
Qed.

Lemma run_display_origin (evs : list event) (s s' : state) (d : Climate.t) :
  run s evs = Some s' → climateData s' = Some d →
  climateData s = Some d ∨ (∃ key, cache s !! key = Some d)
  ∨ ∃ key, Resolved key d ∈ evs.
Proof.
  revert s. induction evs as [|e evs IH]; intros s; cbn.
  - intros [= <-]. auto.
  - destruct (step s e) as [s1|] eqn:E; [|done]. cbn. intros Hrun Hd.
    destruct (IH s1 Hrun Hd) as [H1 | [[key H1] | [key H1]]].
    + destruct (step_display_origin s s1 e d E H1) as [H0 | [H0 | [key ->]]];
        [by left | by right; left |].
      right; right. exists key. left.
    + destruct (step_cache_origin s s1 e key d E H1) as [H0 | ->].
      * right; left. eauto.
      * right; right. exists key. left.
    + right; right. exists key. by right.
Qed.

Lemma keyOf_month (idx : nat) : (idx ≤ 11)%nat → keyOf idx ∈ MONTH_KEYS.
Proof.
  intros Hidx. unfold keyOf.
  destruct (MONTH_KEYS !! idx) as [key|] eqn:E.
  - apply list_elem_of_lookup. eauto.
  - apply lookup_ge_None_1 in E. cbn in E. lia.
Qed.

Lemma run_fetched_months (evs : list event) (s s' : state) :
  Forall onSlider evs → run s evs = Some s' →
  (∀ key, key ∈ fetched s → key ∈ MONTH_KEYS) →
  ∀ key, key ∈ fetched s' → key ∈ MONTH_KEYS.
Proof.
  intros Hall. revert s. induction Hall as [|e evs He Hall IH]; intros s; cbn.
  - by intros [= <-].
  - destruct (step s e) as [s1|] eqn:E; [|done]. cbn. intros Hrun Hs.
    apply (IH s1 Hrun). clear IH Hrun.
    destruct e as [idx | k data | k]; cbn in E.
    + destruct (loading s); [done|]. injection E as <-.
      unfold handleMonthChange, fetchMonth. cbn [cache].
      destruct (cache s !! keyOf idx); cbn [fetched]; [done|].
      intros key [Hk | ->%list_elem_of_singleton]%elem_of_app; [by apply Hs|].
      by apply keyOf_month.
    + case_decide; [|done]. by injection E as <-.
    + case_decide; [|done]. by injection E as <-.
Qed.

(** X12: nothing is shown or cached that the network did not deliver.
    From mount on, a dataset cached for a key was delivered by a fetch for
    that very key, the displayed dataset was delivered by some fetch, and,
    the slider ranging over 0 to 11, every fetch issued is for one of the
    twelve month keys. *)
Theorem cached_data_was_fetched (evs : list event) (s : state) :
  run mounted evs = Some s →
  (∀ key d, cache s !! key = Some d → Resolved key d ∈ evs ∧ key ∈ fetched s) ∧
  (∀ d, climateData s = Some d → ∃ key, Resolved key d ∈ evs) ∧
  (Forall onSlider evs → ∀ key, key ∈ fetched s → key ∈ MONTH_KEYS).
Proof.
  intros Hrun.
  pose proof (run_consistent evs mounted s mounted_consistent Hrun) as Hs.
  split; [|split].
  - intros key d Hd. split.
    + destruct (run_cache_origin evs mounted s key d Hrun Hd) as [H | H]; [|done].
      rewrite mounted_eq in H. cbn in H. by rewrite lookup_empty in H.
    + pose proof (fetches_accounted s Hs key) as Hacc. rewrite Hd in Hacc.
      apply list_elem_of_In, (count_occ_In String.string_dec).
      unfold fetches in Hacc. lia.
  - intros d Hd.
    destruct (run_display_origin evs mounted s d Hrun Hd) as [H | [[key H] | H]];
      [| |done].
    + rewrite mounted_eq in H. done.
    + rewrite mounted_eq in H. cbn in H. by rewrite lookup_empty in H.
  - intros Hall. apply (run_fetched_months evs mounted s Hall Hrun).
    rewrite mounted_eq. cbn. intros key ->%list_elem_of_singleton.
    apply (keyOf_month 6); lia.
Qed.

Lemma cached_data_was_fetched_witness :
  ∃ s,
    run mounted [Resolved "jul" sample_jul; Select 11; Rejected "dec"] = Some s ∧
    fetched s = ["jul"; "dec"]%string ∧
    ("dec" ∈ MONTH_KEYS)%string.
Proof.
  eexists. split; [reflexivity|]. split; [reflexivity|].
  destruct (cached_data_was_fetched
              [Resolved "jul" sample_jul; Select 11; Rejected "dec"] _ eq_refl)
    as (_ & _ & Hm).
  apply Hm.
  - repeat constructor.
  - right. left.
Defined.

(** ** The bubbles against their range *)

Lemma bubbleColor_flat (v lo hi : Q) (inv : bool) :
  lo == hi → bubbleColor (JNum (Num v)) lo hi inv = Ok (255, 200, 0, 220)%Z.
Proof.
  intros H. pose proof (clampedRatio_degenerate (Num v) lo hi H) as Hr.
  change (255, 200, 0, 220)%Z with (withAlpha (255, 200, 0)%Z 220).
  eapply bubbleColor_eq; [exact Hr|]. by destruct inv.
Qed.

Lemma cityFillColor_present (m : metric) (range : Range.t) (d : City.t) (v : Q) :
  getValue (BUBBLE_METRICS m) d = Some v →
  cityFillColor m range d
  = bubbleColor (JNum (Num v)) (Range.min range) (Range.max range)
      (invert (BUBBLE_METRICS m)).
Proof. intros H. unfold cityFillColor. cbv zeta. by rewrite H. Qed.

(** X13: with the range the effect computed from the same cities and
    metric, the bubbles span the gradient.  Every city with a value lies
    inside the range; a city at the minimum is green and one at the
    maximum red, and the other way round for a metric with the inversion
    flag; when all values are equal every such city is yellow; a city
    without a value is gray. *)
Theorem bubbles_span_gradient (cities : list City.t) (m : metric)
    (current : Range.t) (d : City.t) :
  d ∈ cities →
  let r := bubbleRange_effect (Some cities) m current in
  let inv := invert (BUBBLE_METRICS m) in
  (getValue (BUBBLE_METRICS m) d = None →
   cityFillColor m r d = Ok (160, 160, 160, 220)%Z) ∧
  (∀ v, getValue (BUBBLE_METRICS m) d = Some v →
     Range.min r <= v <= Range.max r ∧
     (Range.min r == Range.max r →
      cityFillColor m r d = Ok (255, 200, 0, 220)%Z) ∧
     (Range.min r < Range.max r → v == Range.min r →
      cityFillColor m r d
      = Ok (if inv then (200, 30, 30, 220)%Z else (34, 139, 34, 220)%Z)) ∧
     (Range.min r < Range.max r → v == Range.max r →
      cityFillColor m r d
      = Ok (if inv then (34, 139, 34, 220)%Z else (200, 30, 30, 220)%Z))).
Proof.
  intros Hd r inv. split.
  - intros Hnone. unfold cityFillColor. cbv zeta. by rewrite Hnone.
  - intros v Hv.
    assert (Hin : v ∈ presentValues cities (BUBBLE_METRICS m))
      by (apply elem_of_presentValues; eauto).
    destruct (presentValues cities (BUBBLE_METRICS m)) as [|w vals] eqn:Hvals;
      [by inversion Hin|].
    destruct (bubbleRange_effect_updates cities m current w vals Hvals)
      as (_ & _ & Hbetween).
    fold r in Hbetween. specialize (Hbetween v Hin).
    rewrite (cityFillColor_present m r d v Hv). fold inv.
    split; [exact Hbetween|]. split; [|split].
    + apply bubbleColor_flat.
    + intros Hdom Hmin. apply bubbleColor_low; [exact Hdom | lra].
    + intros Hdom Hmax. apply bubbleColor_high; [exact Hdom | lra].
Qed.

Lemma bubbles_span_gradient_witness :
  cityFillColor resilience_score (Range.Build 40 55) oslo
    = Ok (160, 160, 160, 220)%Z ∧
  cityFillColor resilience_score (Range.Build 40 55) rome
    = Ok (200, 30, 30, 220)%Z ∧
  cityFillColor resilience_score (Range.Build 40 55) kyiv
    = Ok (34, 139, 34, 220)%Z.
Proof.
  assert (Ho : oslo ∈ [oslo; rome; kyiv]) by left.
  assert (Hr : rome ∈ [oslo; rome; kyiv]) by (right; left).
  assert (Hk : kyiv ∈ [oslo; rome; kyiv]) by (do 2 right; left).
  split; [|split].
  - apply (proj1 (bubbles_span_gradient [oslo; rome; kyiv] resilience_score
                    (Range.Build 0 1) oslo Ho)). reflexivity.
  - destruct (proj2 (bubbles_span_gradient [oslo; rome; kyiv] resilience_score
                       (Range.Build 0 1) rome Hr) 40 eq_refl)
      as (_ & _ & Hmin & _).
    apply Hmin; reflexivity.
  - destruct (proj2 (bubbles_span_gradient [oslo; rome; kyiv] resilience_score
                       (Range.Build 0 1) kyiv Hk) 55 eq_refl)
      as (_ & _ & _ & Hmax).
    apply Hmax; reflexivity.
Defined.

Lemma Qabs_opp_eq (x : Q) : Qabs (- x) = Qabs x.
Proof. destruct x as [n d]. cbn. by rewrite Z.abs_opp. Qed.

Lemma Math_min_of_nonneg (vals : list Q) (v : Q) :
  0 <= v → Forall (λ x, 0 <= x) vals → 0 <= Math_min_of v vals.
Proof.
  intros Hv Hall. destruct (Math_min_of_spec vals v) as [Hin _].
  apply elem_of_cons in Hin as [-> | Hin]; [done|].
  rewrite Forall_forall in Hall. by apply Hall.
Qed.

(** X14: the precipitation change is coloured by its size, not its
    direction.  Two cities whose changes differ only in sign get the same
    bubble colour whatever the range, and the range the effect computes for
    this metric does not go below zero. *)
Theorem precip_change_by_magnitude (cities : list City.t) (current : Range.t)
    (range : Range.t) (d d' : City.t) (x : Q) :
  (City.delta_precip_pct d = Some x → City.delta_precip_pct d' = Some (- x) →
   cityFillColor delta_precip_pct range d
   = cityFillColor delta_precip_pct range d') ∧
  (0 <= Range.min current →
   0 <= Range.min (bubbleRange_effect (Some cities) delta_precip_pct current)).
Proof.
  split.
  - intros Hd Hd'. unfold cityFillColor. cbn. by rewrite Hd, Hd', Qabs_opp_eq.
  - intros Hcur. unfold bubbleRange_effect.
    destruct (presentValues cities (BUBBLE_METRICS delta_precip_pct))
      as [|v vals] eqn:Hvals; [done|]. cbn [Range.min].
    assert (Hall : Forall (λ x, 0 <= x) (v :: vals)).
    { rewrite <- Hvals. apply Forall_forall. intros w Hw.
      apply elem_of_presentValues in Hw as (c & _ & Hw). cbn in Hw.
      destruct (City.delta_precip_pct c); [|done].
      injection Hw as <-. apply Qabs_nonneg. }
    apply Forall_cons in Hall as [Hv Hall]. by apply Math_min_of_nonneg.
Qed.

Lemma precip_change_by_magnitude_witness :
  cityFillColor delta_precip_pct (Range.Build 1 4)
    (City.Build "Bergen" "Norway" 60 5 None None None None (Some 4))
  = cityFillColor delta_precip_pct (Range.Build 1 4) oslo.
Proof.
  apply (proj1 (precip_change_by_magnitude [] (Range.Build 0 1) (Range.Build 1 4)
                  (City.Build "Bergen" "Norway" 60 5 None None None None (Some 4))
                  oslo 4)); reflexivity.
Defined.

(** ** More on rewriting [NaN] *)

Lemma occursIn_tail (pat tl : string) (c : ascii) :
  occursIn pat tl → occursIn pat (String c tl).
Proof. intros (pre & post & ->). by exists (String c pre), post. Qed.

Lemma replaceNaN_fixes (txt : string) :
  ¬ occursIn "NaN" txt → replaceNaN txt = txt.
Proof.
  induction txt as [|c tl IH]; intros Hno; [done|].
  rewrite replaceNaN_other.
  - f_equal. apply IH. intros H. by apply Hno, occursIn_tail.
  - destruct (startsNaN (String c tl)) eqn:E; [|done].
    apply startsNaN_true in E as [rest E]. destruct Hno.
    by exists EmptyString, rest.
Qed.

(** X15: text without [NaN] passes through untouched, and only such text
    does; so rewriting is idempotent: a second pass changes nothing. *)
Theorem replaceNaN_identity_iff (txt : string) :
  (replaceNaN txt = txt ↔ ¬ occursIn "NaN" txt) ∧
  replaceNaN (replaceNaN txt) = replaceNaN txt.
Proof.
  assert (Hout : ∀ t, ¬ occursIn "NaN" (replaceNaN t)).
  { intros t (pre & post & H).
    by apply (replaceNaN_no_NaN_upto (String.length pre) pre t post). }
  split; [split|].
  - intros H. rewrite <- H. apply Hout.
  - apply replaceNaN_fixes.
  - apply replaceNaN_fixes, Hout.
Qed.

Lemma replaceNaN_identity_iff_witness :
  replaceNaN "[1.5, null, -2]" = "[1.5, null, -2]"%string.
Proof.
  apply (proj2 (proj1 (replaceNaN_identity_iff "[1.5, null, -2]"))).
  change (¬ occursIn "NaN" (replaceNaN (replaceNaN "[1.5, NaN, -2]"))).
  intros (pre & post & H).
  by apply (replaceNaN_no_NaN_upto (String.length pre) pre
              (replaceNaN "[1.5, NaN, -2]") post).
Defined.

(** ** Formatting *)

Example toFixed_decimal_examples :
  toFixed_decimal (Num (1234567 # 1000)) 1%nat = "1234.6"%string ∧
  toFixed_decimal (Num (5 # 2)) 0%nat = "3"%string ∧
  toFixed_decimal (Num (- (4 # 100))) 1%nat = "-0.0"%string ∧
  toFixed_decimal (Num (5025 # 100)) 2%nat = "50.25"%string ∧
  fmtPct toFixed_decimal (JNum (Num (37 # 10))) = "+3.7%"%string ∧
  fmtPrice (JNum (Num (12995 # 10))) = "€1300"%string.
Proof. repeat split; reflexivity. Qed.

Lemma append_nil (t : string) : (EmptyString +:+ t)%string = t.
Proof. reflexivity. Qed.

Lemma append_cons (c : ascii) (s t : string) :
  (String c s +:+ t)%string = String c (s +:+ t).
Proof. reflexivity. Qed.

(** No text ending in a degree sign and C, or in a percent sign, is the
    placeholder. *)
Lemma celsius_not_NA (s : string) : (s +:+ "°C")%string ≠ "N/A"%string.
Proof.
  destruct s as [|a [|b [|c [|e s]]]];
    rewrite ?append_cons, ?append_nil; discriminate.
Qed.

Lemma percent_not_NA (s : string) : (s +:+ "%")%string ≠ "N/A"%string.
Proof.
  destruct s as [|a [|b [|c [|e s]]]];
    rewrite ?append_cons, ?append_nil; discriminate.
Qed.

Lemma isNA_iff (value : string) : isNA value = true ↔ value = "N/A"%string.
Proof. unfold isNA. apply String.eqb_eq. Qed.

Lemma fmtPrice_NA (v : jsval) : fmtPrice v = "N/A"%string ↔ missing v.
Proof.
  unfold missing. destruct v as [| |[q|]]; cbn [fmtPrice].
  - split; auto.
  - split; auto.
  - split; [|by intros [|]].
    change ("€" +:+ pretty (Math_round q))%string
      with (String "226" (String "130" (String "172" (pretty (Math_round q))))).
    discriminate.
  - split; [discriminate | by intros [|]].
Qed.

Lemma fmtTemp_NA (toFixed : jsnum → nat → string) (v : jsval) :
  fmtTemp toFixed v = "N/A"%string ↔ missing v.
Proof.
  unfold missing. destruct v as [| |n]; cbn [fmtTemp]; [split; auto..|].
  split; [|by intros [|]]. intros H. by apply celsius_not_NA in H.
Qed.

Lemma fmtPct_NA (toFixed : jsnum → nat → string) (v : jsval) :
  fmtPct toFixed v = "N/A"%string ↔ missing v.
Proof.
  unfold missing. destruct v as [| |n]; cbn [fmtPct]; [split; auto..|].
  split; [|by intros [|]]. destruct (jgt n 0).
  - rewrite append_cons. discriminate.
  - rewrite append_nil. intros H. by apply percent_not_NA in H.
Qed.

Lemma fmtNum_NA (toFixed : jsnum → nat → string) (v : jsval) (dec : nat) :
  (∀ x f, toFixed x f ≠ "N/A"%string) →
  fmtNum toFixed v dec = "N/A"%string ↔ missing v.
Proof.
  intros Hfix. unfold missing. destruct v as [| |n]; cbn [fmtNum]; [split; auto..|].
  split; [|by intros [|]]. intros H. by apply Hfix in H.
Qed.

Lemma pretty_N_char_not_N (x : N) : pretty_N_char x ≠ "N"%char.
Proof. unfold pretty_N_char. by repeat case_match. Qed.

Lemma pretty_N_go_head (x : N) :
  ∀ (c : ascii) (s : string), c ≠ "N"%char →
    ∃ c' s', pretty_N_go x (String c s) = String c' s' ∧ c' ≠ "N"%char.
Proof.
  induction (N.lt_wf_0 x) as [x _ IH]. intros c s Hc.
  destruct (decide (x = 0)%N) as [-> | Hx].
  - rewrite pretty_N_go_0. eauto.
  - rewrite pretty_N_go_step by lia.
    apply IH; [apply N.div_lt; lia | apply pretty_N_char_not_N].
Qed.

Lemma pretty_N_head (n : N) :
  ∃ c s, pretty n = String c s ∧ c ≠ "N"%char.
Proof.
  unfold pretty, pretty_N. case_decide as Hn.
  - exists "0"%char, EmptyString. done.
  - rewrite pretty_N_go_step by lia.
    apply pretty_N_go_head, pretty_N_char_not_N.
Qed.

Lemma toFixed_decimal_not_NA (x : jsnum) (f : nat) :
  toFixed_decimal x f ≠ "N/A"%string.
Proof.
  destruct x as [q|]; [|discriminate]. unfold toFixed_decimal. cbv zeta.
  destruct (Qle_bool 0 q).
  - rewrite append_nil.
    destruct (pretty_N_head
                (Z.to_N (Qfloor (Qabs q * inject_Z (10 ^ Z.of_nat f) + (1 # 2)))
                 / 10 ^ N.of_nat f)) as (c & s & -> & Hc).
    rewrite append_cons. intros [= -> _]. done.
  - rewrite append_cons. discriminate.
Qed.

(** X16: the placeholder means missing, and nothing else.  Each of the
    four formatters returns [N/A] exactly for [null] and [undefined], so a
    row of the detail panel is grayed out exactly when its value is
    missing; [fmtNum] relies for this on [toFixed] never printing [N/A],
    the other three do not depend on [toFixed] at all. *)
Theorem formatters_NA_iff_missing (toFixed : jsnum → nat → string)
    (v : jsval) (dec : nat) :
  (∀ x f, toFixed x f ≠ "N/A"%string) →
  (isNA (fmtPrice v) = true ↔ missing v) ∧
  (isNA (fmtTemp toFixed v) = true ↔ missing v) ∧
  (isNA (fmtPct toFixed v) = true ↔ missing v) ∧
  (isNA (fmtNum toFixed v dec) = true ↔ missing v).
Proof.
  intros Hfix. rewrite !isNA_iff.
  split; [apply fmtPrice_NA|]. split; [apply fmtTemp_NA|].
  split; [apply fmtPct_NA | by apply fmtNum_NA].
Qed.

Lemma formatters_NA_iff_missing_witness :
  isNA (fmtNum toFixed_decimal (fieldValue (City.cost_of_living_index rome)) 1) = true ∧
  isNA (fmtNum toFixed_decimal (fieldValue (City.resilience_score rome)) 0) = false.
Proof.
  split; [reflexivity|].
  destruct (formatters_NA_iff_missing toFixed_decimal
              (fieldValue (City.resilience_score rome)) 0
              toFixed_decimal_not_NA) as (_ & _ & _ & H).
  destruct (isNA (fmtNum toFixed_decimal
                    (fieldValue (City.resilience_score rome)) 0)); [|done].
  by destruct (proj1 H eq_refl).
Defined.

Lemma Math_round_nearest (x : Q) :
  x - (1 # 2) < inject_Z (Math_round x) ∧ inject_Z (Math_round x) <= x + (1 # 2).
Proof.
  unfold Math_round.
  pose proof (Qfloor_le (x + (1 # 2))) as H1.
  pose proof (Qlt_floor (x + (1 # 2))) as H2.
  rewrite inject_Z_plus in H2. change (inject_Z 1) with 1 in H2. lra.
Qed.

(** X17: prices are shown to the nearest euro.  The amount printed for a
    number is the integer within one half of it, the upper one of two, and
    two numbers are printed alike exactly when that integer is the same. *)
Theorem fmtPrice_nearest_euro (a b : Q) :
  fmtPrice (JNum (Num a)) = ("€" +:+ pretty (Math_round a))%string ∧
  a - (1 # 2) < inject_Z (Math_round a) ∧
  inject_Z (Math_round a) <= a + (1 # 2) ∧
  (fmtPrice (JNum (Num a)) = fmtPrice (JNum (Num b))
   ↔ Math_round a = Math_round b).
Proof.
  split; [reflexivity|].
  destruct (Math_round_nearest a) as [H1 H2].
  split; [exact H1|]. split; [exact H2|]. cbn [fmtPrice]. split.
  - intros H. apply (inj pretty). by apply (inj (String.append "€")) in H.
  - by intros ->.
Qed.

Lemma fmtPrice_nearest_euro_witness :
  fmtPrice (JNum (Num (12995 # 10))) = fmtPrice (JNum (Num (13002 # 10))).
Proof.
  apply (proj2 (proj2 (proj2 (proj2
    (fmtPrice_nearest_euro (12995 # 10) (13002 # 10)))))).
  reflexivity.
Defined.

(** ** The tooltip of a grid cell *)

Lemma heatmap_onHover_emitted (climateData : Climate.t) (v : variable)
    (cells : list cell) (d : cell) (x y : Q) :
  (∀ v', length (Climate.lats climateData) ≤ length (gridOf climateData v'))%nat →
  cellsOf climateData v = Ok cells → d ∈ cells →
  ∃ t p s lat lon,
    heatmap_onHover climateData (Some d) x y
    = Ok (Some (GridHover x y t p s (JNum (Num lat)) (JNum (Num lon)))) ∧
    gridRead (Climate.temperature climateData) (i d) (j d) = Ok t ∧
    gridRead (Climate.precipitation climateData) (i d) (j d) = Ok p ∧
    gridRead (Climate.sunshine climateData) (i d) (j d) = Ok s ∧
    gridRead (gridOf climateData v) (i d) (j d) = Ok (JNum (value d)).
Proof.
  intros Hrows Hcells Hd. unfold cellsOf in Hcells.
  apply buildCells_Ok in Hcells as ->.
  apply elem_of_allCells in Hd as (a & b & Hd).
  apply cellAt_Some in Hd as (lat & lon & val & Hlat & Hlon & Hval & ->).
  apply gridRead_lookup in Hval.
  pose proof (lookup_lt_Some _ _ _ Hlat) as Ha.
  destruct (gridRead_rows (Climate.temperature climateData) a b) as [t Ht].
  { specialize (Hrows temperature). cbn in Hrows. lia. }
  destruct (gridRead_rows (Climate.precipitation climateData) a b) as [p Hp].
  { specialize (Hrows precipitation). cbn in Hrows. lia. }
  destruct (gridRead_rows (Climate.sunshine climateData) a b) as [s Hs].
  { specialize (Hrows sunshine). cbn in Hrows. lia. }
  exists t, p, s, lat, lon. cbn [i j value].
  split; [|done].
  unfold heatmap_onHover, arrayRead. cbn [i j].
  by rewrite Ht, Hp, Hs, Hlat, Hlon.
Qed.

Lemma renderGridTooltip_throws (toFixed : jsnum → nat → string)
    (x y lat lon : Q) (t p s : jsval) :
  let h := GridHover x y t p s (JNum (Num lat)) (JNum (Num lon)) in
  (renderGridTooltip toFixed h = TypeError
   ↔ missing t ∨ missing p ∨ missing s) ∧
  (¬ (missing t ∨ missing p ∨ missing s) →
   ∃ lines, renderGridTooltip toFixed h = Ok (GridTooltip (x + 12) (y + 12) lines)).
Proof.
  unfold missing, renderGridTooltip. cbn [hover_lat hover_lon hover_x hover_y temp precip sun].
  destruct t as [| |tn], p as [| |pn], s as [| |sn];
    cbn [callToFixed mbind outcome_bind];
    (split;
     [ split;
       [ first [discriminate | intros _; auto 10]
       | first [intros _; reflexivity
               | intros H; exfalso; decompose [or] H; discriminate] ]
     | first [intros _; eexists; reflexivity
             | intros H; exfalso; apply H; auto 10] ]).
Qed.

(** X18: the tooltip of a hovered cell throws exactly when one of the
    three variables is [null] or [undefined] at the cell's position.  With
    a row for every latitude in each grid, the variable the cell was built
    from is never the one that is missing; so on grids that are missing at
    the same positions no tooltip throws, and where another variable's grid
    has a gap that this one has not, the tooltip does. *)
Theorem tooltip_throws_iff_missing (toFixed : jsnum → nat → string)
    (climateData : Climate.t) (v : variable) (cells : list cell) (d : cell)
    (x y : Q) :
  (∀ v', length (Climate.lats climateData) ≤ length (gridOf climateData v'))%nat →
  cellsOf climateData v = Ok cells → d ∈ cells →
  ∃ h,
    heatmap_onHover climateData (Some d) x y = Ok (Some h) ∧
    (∀ v', gridRead (gridOf climateData v') (i d) (j d) = Ok (hoverValue h v')) ∧
    ¬ missing (hoverValue h v) ∧
    (renderGridTooltip toFixed h = TypeError ↔ ∃ v', missing (hoverValue h v')) ∧
    ((∀ v', ¬ missing (hoverValue h v')) →
     ∃ lines,
       renderGridTooltip toFixed h = Ok (GridTooltip (x + 12) (y + 12) lines)).
Proof.
  intros Hrows Hcells Hd.
  destruct (heatmap_onHover_emitted climateData v cells d x y Hrows Hcells Hd)
    as (t & p & s & lat & lon & Hh & Ht & Hp & Hs & Hv).
  exists (GridHover x y t p s (JNum (Num lat)) (JNum (Num lon))).
  destruct (renderGridTooltip_throws toFixed x y lat lon t p s) as [Hthrow Hok].
  split; [exact Hh|]. split; [by intros []|]. split; [|split].
  - assert (hoverValue (GridHover x y t p s (JNum (Num lat)) (JNum (Num lon))) v
            = JNum (value d)) as ->.
    { destruct v; cbn [hoverValue temp precip sun gridOf] in *; congruence. }
    by intros [|].
  - rewrite Hthrow. split.
    + intros [H | [H | H]];
        [by exists temperature | by exists precipitation | by exists sunshine].
    + intros [[] H]; cbn in H; tauto.
  - intros Hall. apply Hok. intros [H | [H | H]].
    + by apply (Hall temperature).
    + by apply (Hall precipitation).
    + by apply (Hall sunshine).
Qed.

Lemma tooltip_throws_iff_missing_witness :
  ∃ h,
    heatmap_onHover
      (Climate.Build "jan" [50] [10] [ [JNum (Num 5)] ] [ [JNull] ]
         [ [JNum (Num 2)] ])
      (Some (Cell (cellPolygon 10 50) (Num 5) 0 0)) 300 200 = Ok (Some h) ∧
    renderGridTooltip toFixed_decimal h = TypeError.
Proof.
  destruct (tooltip_throws_iff_missing toFixed_decimal
              (Climate.Build "jan" [50] [10] [ [JNum (Num 5)] ] [ [JNull] ]
                 [ [JNum (Num 2)] ])
              temperature [Cell (cellPolygon 10 50) (Num 5) 0 0]
              (Cell (cellPolygon 10 50) (Num 5) 0 0) 300 200)
    as (h & Hh & Hread & _ & Hthrow & _).
  - intros []; cbn; lia.
  - reflexivity.
  - left.
  - exists h. split; [exact Hh|]. apply Hthrow. exists precipitation.
    specialize (Hread precipitation). left. cbn in Hread |- *. congruence.
Defined.

Example renderGridTooltip_sample :
  renderGridTooltip toFixed_decimal
    (GridHover 300 200 (JNum (Num 5)) (JNum (Num (405 # 10))) (JNum (Num 2))
       (JNum (Num 50)) (JNum (Num (1025 # 100))))
  = Ok (GridTooltip 312 212
          [ "50.00°N, 10.25°E"; "Temperature: 5.0°C";
            "Precipitation: 40.5 mm"; "Sunshine: 2.0 h/day" ]%string).
Proof. reflexivity. Qed.
